(** * Keenetic Control: request pipeline, operation surface, export, singleton

    A shallow embedding of the router client of this repository
    ([KeeneticControl], [getKeeneticControl], [initKeeneticControl]) and
    the properties its specification states about it.

    Conventions of the embedding.
    - A JavaScript string is a [string]: a sequence of 8-bit code units.
      This covers the strings whose UTF-16 code units are all below 256,
      which is also the domain on which [btoa] does not throw.
    - A JavaScript number is a [Z]; only integer values are represented,
      and [String(n)] is the decimal numeral [pretty n].
    - An optional field [f?: T] is an [option T]; [None] is [undefined].
    - A plain object used as a header dictionary is a [gmap string string].
    - A JSON value is a [JSON]; an object is the list of its properties in
      [Object.keys] order.
    - A promise is represented by what it settles to: [inl e] when it
      rejects with [e], [inr v] when it fulfils with [v], together with the
      trace of transport invocations and timer waits made on the way.
      Debug logging ([this.log]) writes to the console only and is left
      out of the trace. *)

From Stdlib Require Import ZArith String Ascii List Lia.
From stdpp Require Import base gmap strings pretty list.
From Equations Require Import Equations.

Open Scope Z_scope.
Open Scope string_scope.

(** ** Platform functions used by the client *)

Module Js.

(** The double quote and the line feed, as one-character strings. *)
Definition dquote : string := String "034"%char EmptyString.
Definition nl : string := String "010"%char EmptyString.

(** [" ".repeat(n)] *)
Fixpoint spaces (n : nat) : string :=
  match n with
  | O => ""
  | S m => String " "%char (spaces m)
  end.

(** [xs.join(sep)] *)
Fixpoint join (sep : string) (xs : list string) : string :=
  match xs with
  | [] => ""
  | [x] => x
  | x :: rest => x +:+ sep +:+ join sep rest
  end.

(** White space in the sense of [String.prototype.trimStart], among the
    code units below 256: TAB, LF, VT, FF, CR, SPACE and NBSP. *)
Definition is_white_space (c : ascii) : bool :=
  let n := N_of_ascii c in
  ((9 <=? n) && (n <=? 13) || (n =? 32) || (n =? 160))%N.

(** [s.trimStart()] *)
Fixpoint trimStart (s : string) : string :=
  match s with
  | EmptyString => EmptyString
  | String c rest => if is_white_space c then trimStart rest else s
  end.

(** [s.match(re) !== null] for a regular expression [re] that is one
    character class: some character of [s] belongs to [class]. *)
Fixpoint matches_class (class : list ascii) (s : string) : bool :=
  match s with
  | EmptyString => false
  | String c rest => bool_decide (c ∈ class) || matches_class class rest
  end.

(** [s.replace(/c/g, by)] for a single character [c]. *)
Fixpoint replace_all (c : ascii) (by_ : string) (s : string) : string :=
  match s with
  | EmptyString => EmptyString
  | String d rest =>
      if Ascii.eqb c d then by_ +:+ replace_all c by_ rest
      else String d (replace_all c by_ rest)
  end.

(** [x || d] on numbers: [undefined] and [0] are falsy. *)
Definition or_default (x : option Z) (d : Z) : Z :=
  match x with
  | Some v => if bool_decide (v = 0) then d else v
  | None => d
  end.

(** Base64 alphabet of [btoa]. *)
Definition b64_alphabet : string :=
  "ABCDEFGHIJKLMNOPQRSTUVWXYZabcdefghijklmnopqrstuvwxyz0123456789+/".

Definition b64_digit (n : N) : ascii :=
  match String.get (N.to_nat (N.land n 63)) b64_alphabet with
  | Some c => c
  | None => "="%char
  end.

(** Encoding of the byte sequence: three bytes give four digits, and a
    final group of one or two bytes is padded with [=]. *)
Fixpoint b64_encode (bytes : list N) : string :=
  match bytes with
  | [] => ""
  | [a] =>
      let w := N.shiftl a 16 in
      String (b64_digit (N.shiftr w 18))
        (String (b64_digit (N.shiftr w 12)) "==")
  | [a; b] =>
      let w := N.lor (N.shiftl a 16) (N.shiftl b 8) in
      String (b64_digit (N.shiftr w 18))
        (String (b64_digit (N.shiftr w 12))
          (String (b64_digit (N.shiftr w 6)) "="))
  | a :: b :: c :: rest =>
      let w := N.lor (N.lor (N.shiftl a 16) (N.shiftl b 8)) c in
      String (b64_digit (N.shiftr w 18))
        (String (b64_digit (N.shiftr w 12))
          (String (b64_digit (N.shiftr w 6))
            (String (b64_digit w) (b64_encode rest))))
  end.

Fixpoint code_units (s : string) : list N :=
  match s with
  | EmptyString => []
  | String c rest => N_of_ascii c :: code_units rest
  end.

(** [btoa(s)]; total here because every code unit is below 256. *)
Definition btoa (s : string) : string := b64_encode (code_units s).

End Js.

(** ** JSON values *)

#[warnings="-register-all"]
Inductive JSON : Type :=
| JNull
| JBool (b : bool)
| JNumber (n : Z)
| JString (s : string)
| JArray (items : list JSON)
| JObject (entries : list (string * JSON)).

Module Json.

Definition hex_digit (n : N) : ascii :=
  match String.get (N.to_nat (N.land n 15)) "0123456789abcdef" with
  | Some c => c
  | None => "0"%char
  end.

(** Escape of one code unit inside a JSON string literal. *)
Definition escape_unit (c : ascii) : string :=
  let n := N_of_ascii c in
  if (n =? 34)%N then "\" +:+ Js.dquote
  else if (n =? 92)%N then "\\"
  else if (n =? 8)%N then "\b"
  else if (n =? 12)%N then "\f"
  else if (n =? 10)%N then "\n"
  else if (n =? 13)%N then "\r"
  else if (n =? 9)%N then "\t"
  else if (n <? 32)%N then
    "\u00" +:+ String (hex_digit (N.shiftr n 4)) (String (hex_digit n) "")
  else String c "".

Fixpoint escape (s : string) : string :=
  match s with
  | EmptyString => EmptyString
  | String c rest => escape_unit c +:+ escape rest
  end.

Definition quote (s : string) : string := Js.dquote +:+ escape s +:+ Js.dquote.

(** [JSON.stringify(v)], the compact form. *)
Fixpoint stringify (v : JSON) : string :=
  match v with
  | JNull => "null"
  | JBool b => if b then "true" else "false"
  | JNumber n => pretty n
  | JString s => quote s
  | JArray items => "[" +:+ Js.join "," (map stringify items) +:+ "]"
  | JObject entries =>
      "{" +:+ Js.join ","
        (map (fun kv => quote (fst kv) +:+ ":" +:+ stringify (snd kv)) entries)
      +:+ "}"
  end.

End Json.

(** ** The YAML transcription, [KeeneticControl.jsonToYaml] *)

(** The character class of the quoting test. *)
Definition yaml_special : list ascii :=
  [":"; "#"; "{"; "}"; "["; "]"; ","; "&"; "*"; "?"; "|"; "<"; ">"; "=";
   "!"; "%"; "@"; "`"]%char.

(** [typeof value === "object" && value !== null && !Array.isArray(value)
    && Object.keys(value).length > 0], or
    [Array.isArray(value) && value.length > 0]. *)
Definition nonempty_container (value : JSON) : bool :=
  match value with
  | JObject (_ :: _) => true
  | JArray (_ :: _) => true
  | _ => false
  end.

(** [jsonToYaml(json, indent)] on JSON values. The test for [undefined]
    has no case here: [undefined] is not a JSON value, and neither a
    parsed response nor the aggregate object holds one. *)
Fixpoint jsonToYaml (json : JSON) (indent : nat) {struct json} : string :=
  let spaces := Js.spaces indent in
  match json with
  | JNull => "null"
  | JBool b => if b then "true" else "false"
  | JNumber n => pretty n
  | JString s =>
      if Js.matches_class yaml_special s
      then Js.dquote +:+ Js.replace_all "034"%char ("\" +:+ Js.dquote) s +:+ Js.dquote
      else s
  | JArray items =>
      match items with
      | [] => "[]"
      | _ =>
          Js.join Js.nl
            (map (fun item =>
                    spaces +:+ "- " +:+ Js.trimStart (jsonToYaml item (indent + 2)))
                 items)
      end
  | JObject entries =>
      match entries with
      | [] => "{}"
      | _ =>
          Js.join Js.nl
            (map (fun kv =>
                    let key := fst kv in
                    let value := snd kv in
                    if nonempty_container value
                    then spaces +:+ key +:+ ":" +:+ Js.nl +:+ jsonToYaml value (indent + 2)
                    else spaces +:+ key +:+ ": " +:+ jsonToYaml value (indent + 2))
                 entries)
      end
  end.

(** ** Connection descriptor and client configuration *)

Record KeeneticCredentials : Type := {
  host : string;
  username : string;
  password : string;
  port : option Z;
  secure : option bool
}.

Module Options.
(** [KeeneticControlOptions] *)
Record t : Type := {
  credentials : KeeneticCredentials;
  timeout : option Z;
  retryCount : option Z;
  retryDelay : option Z;
  debug : option bool
}.
End Options.

Abbreviation KeeneticControlOptions := Options.t.

(** The fields of a [KeeneticControl] object. *)
Record KeeneticControl : Type := {
  credentials : KeeneticCredentials;
  timeout : Z;
  retryCount : Z;
  retryDelay : Z;
  debug : bool;
  token : option string;
  tokenExpiry : Z
}.

(** [new KeeneticControl(options)] *)
Definition constructor (options : KeeneticControlOptions) : KeeneticControl :=
  {| credentials := Options.credentials options;
     timeout := Js.or_default (Options.timeout options) 10000;
     retryCount := Js.or_default (Options.retryCount options) 3;
     retryDelay := Js.or_default (Options.retryDelay options) 1000;
     debug := match Options.debug options with Some b => b || false | None => false end;
     token := None;
     tokenExpiry := 0 |}.

Definition getBaseUrl (this : KeeneticControl) : string :=
  let c := credentials this in
  let protocol := if bool_decide (secure c <> Some false) then "https" else "http" in
  let portStr :=
    match port c with
    | Some p => if bool_decide (p = 0) then "" else ":" +:+ pretty p
    | None => ""
    end in
  protocol +:+ "://" +:+ host c +:+ portStr.

Definition getAuthHeader (this : KeeneticControl) : gmap string string :=
  let c := credentials this in
  {[ "Authorization" := "Basic " +:+ Js.btoa (username c +:+ ":" +:+ password c) ]}.

(** ** The transport *)

(** A thrown or rejected [Error]: its [name] and its [message]. *)
Record Error : Type := { name : string; message : string }.

(** What the client reads of a [Response]: the status line, what
    [response.json()] settles to (a rejection when the body is not JSON
    text), and what [response.blob()] yields. *)
Record Response : Type := {
  status : Z;
  statusText : string;
  json : Error + JSON;
  blob : string
}.

(** [response.ok] *)
Definition ok (response : Response) : bool :=
  bool_decide (200 <= status response <= 299).

Inductive Body : Type :=
| TextBody (text : string)
| FormBody (fields : list (string * string)).

(** [RequestInit]. A [signal] is identified by the delay in milliseconds
    after which its controller aborts. *)
Record RequestInit : Type := {
  method : option string;
  headers : option (gmap string string);
  body : option Body;
  signal : option Z
}.

Definition no_options : RequestInit :=
  {| method := None; headers := None; body := None; signal := None |}.

(** The method [fetch] sends: GET when [init.method] is absent. *)
Definition sent_method (init : RequestInit) : string :=
  match method init with
  | Some m => m
  | None => "GET"
  end.

(** Observable steps of a call: an invocation of [fetch], or a timer wait. *)
Inductive Event : Type :=
| Fetch (url : string) (init : RequestInit)
| Wait (ms : Z).

(** A settled promise with the steps that led to it. *)
Record Outcome (A : Type) : Type := {
  trace : list Event;
  settled : Error + A
}.
Arguments trace {A} _.
Arguments settled {A} _.

(** The transport is an oracle: [net url init i] is what the invocation
    number [i] (from 0) of [fetch(url, init)] within one call settles to,
    a rejection (network error, or the abort raised by the signal) or a
    response. *)
Definition Transport : Type := string -> RequestInit -> nat -> Error + Response.

Definition is_fetch (e : Event) : bool :=
  match e with
  | Fetch _ _ => true
  | Wait _ => false
  end.

(** Number of transport invocations in a trace. *)
Definition invocations (tr : list Event) : nat := length (filter is_fetch tr).

(** ** The request pipeline, [KeeneticControl.request] *)

Definition api_error (response : Response) : Error :=
  {| name := "Error";
     message := "API error: " +:+ pretty (status response) +:+ " " +:+ statusText response |}.

(** The header object built by [request]. *)
Definition request_headers (this : KeeneticControl) (options : RequestInit)
  : gmap string string :=
  let own := <[ "Content-Type" := "application/json" ]> (getAuthHeader this) in
  match headers options with
  | Some given => given ∪ own
  | None => own
  end.

(** The second argument [request] passes to [fetch]. *)
Definition request_init (this : KeeneticControl) (options : RequestInit) : RequestInit :=
  {| method := method options;
     headers := Some (request_headers this options);
     body := body options;
     signal := Some (timeout this) |}.

(** What the [try] block evaluates to, given what [fetch] settled to. *)
Definition attempt (answer : Error + Response) : Error + JSON :=
  match answer with
  | inl e => inl e
  | inr response => if ok response then json response else inl (api_error response)
  end.

(** How attempt number [i] of a pipeline call ends. *)
Definition answer (this : KeeneticControl) (net : Transport)
    (endpoint : string) (options : RequestInit) (i : nat) : Error + JSON :=
  attempt (net (getBaseUrl this +:+ endpoint) (request_init this options) i).

Definition prepend {A} (evs : list Event) (o : Outcome A) : Outcome A :=
  {| trace := evs ++ trace o; settled := settled o |}.

(** [request_from this net endpoint options retries made] is the call
    [this.request(endpoint, options, retries)] when [made] invocations of
    the transport precede it in the same pipeline call. *)
Equations? request_from (this : KeeneticControl) (net : Transport)
    (endpoint : string) (options : RequestInit) (retries : Z) (made : nat)
    : Outcome JSON by wf (Z.to_nat retries) lt :=
  request_from this net endpoint options retries made
    with attempt (net (getBaseUrl this +:+ endpoint) (request_init this options) made) := {
    | inr value =>
        {| trace := [Fetch (getBaseUrl this +:+ endpoint) (request_init this options)];
           settled := inr value |}
    | inl error with decide (0 < retries) := {
      | left _ =>
          prepend [Fetch (getBaseUrl this +:+ endpoint) (request_init this options);
                   Wait (retryDelay this)]
            (request_from this net endpoint options (retries - 1) (S made))
      | right _ =>
          {| trace := [Fetch (getBaseUrl this +:+ endpoint) (request_init this options)];
             settled := inl error |} } }.
Proof. lia. Defined.

(** [this.request(endpoint, options)], with [retries = this.retryCount]. *)
Definition request (this : KeeneticControl) (net : Transport)
    (endpoint : string) (options : RequestInit) : Outcome JSON :=
  request_from this net endpoint options (retryCount this) 0.

(** ** Domain operations *)

(** [await p; return] of a [Promise<void>] method: the value is dropped. *)
Definition discard {A} (o : Outcome A) : Outcome unit :=
  {| trace := trace o;
     settled := match settled o with inl e => inl e | inr _ => inr tt end |}.

(** An options object with a method and no body. *)
Definition with_method (m : string) : RequestInit :=
  {| method := Some m; headers := None; body := None; signal := None |}.

(** An options object with a method and [body: JSON.stringify(payload)]. *)
Definition with_json (m : string) (payload : JSON) : RequestInit :=
  {| method := Some m; headers := None;
     body := Some (TextBody (Json.stringify payload)); signal := None |}.

Definition testConnection (this : KeeneticControl) (net : Transport) : Outcome bool :=
  let r := request this net "/rci/system/status" no_options in
  {| trace := trace r;
     settled := match settled r with inr _ => inr true | inl _ => inr false end |}.

Definition getSystemInfo (this : KeeneticControl) (net : Transport) : Outcome JSON :=
  request this net "/rci/show/system" no_options.

Definition getInterfaces (this : KeeneticControl) (net : Transport) : Outcome JSON :=
  request this net "/rci/show/interface" no_options.

Definition getInterface (this : KeeneticControl) (net : Transport) (name : string)
  : Outcome JSON :=
  request this net ("/rci/show/interface/" +:+ name) no_options.

Definition configureInterface (this : KeeneticControl) (net : Transport)
    (name : string) (config : JSON) : Outcome JSON :=
  request this net ("/rci/interface/" +:+ name) (with_json "PATCH" config).

Definition getWifiNetworks (this : KeeneticControl) (net : Transport) : Outcome JSON :=
  request this net "/rci/show/interface/wireless" no_options.

Definition configureWifiNetwork (this : KeeneticControl) (net : Transport)
    (ssid : string) (config : JSON) : Outcome JSON :=
  request this net ("/rci/wireless/ssid/" +:+ ssid) (with_json "PATCH" config).

Definition createWifiNetwork (this : KeeneticControl) (net : Transport)
    (config : JSON) : Outcome JSON :=
  request this net "/rci/wireless/ssid" (with_json "POST" config).

Definition deleteWifiNetwork (this : KeeneticControl) (net : Transport)
    (ssid : string) : Outcome unit :=
  discard (request this net ("/rci/wireless/ssid/" +:+ ssid) (with_method "DELETE")).

Definition getConnectedClients (this : KeeneticControl) (net : Transport) : Outcome JSON :=
  request this net "/rci/show/ip/hotspot" no_options.

Definition blockClient (this : KeeneticControl) (net : Transport) (mac : string)
  : Outcome unit :=
  discard (request this net ("/rci/ip/hotspot/mac/" +:+ mac +:+ "/block")
             (with_method "POST")).

Definition unblockClient (this : KeeneticControl) (net : Transport) (mac : string)
  : Outcome unit :=
  discard (request this net ("/rci/ip/hotspot/mac/" +:+ mac +:+ "/unblock")
             (with_method "POST")).

Definition getVpnConnections (this : KeeneticControl) (net : Transport) : Outcome JSON :=
  request this net "/rci/show/vpn" no_options.

Definition configureVpn (this : KeeneticControl) (net : Transport)
    (type : string) (config : JSON) : Outcome JSON :=
  request this net ("/rci/vpn/" +:+ type) (with_json "PATCH" config).

Definition getFirewallRules (this : KeeneticControl) (net : Transport) : Outcome JSON :=
  request this net "/rci/show/ip/firewall" no_options.

Definition addFirewallRule (this : KeeneticControl) (net : Transport)
    (rule : JSON) : Outcome JSON :=
  request this net "/rci/ip/firewall/rule" (with_json "POST" rule).

Definition updateFirewallRule (this : KeeneticControl) (net : Transport)
    (id : Z) (rule : JSON) : Outcome JSON :=
  request this net ("/rci/ip/firewall/rule/" +:+ pretty id) (with_json "PATCH" rule).

Definition deleteFirewallRule (this : KeeneticControl) (net : Transport) (id : Z)
  : Outcome unit :=
  discard (request this net ("/rci/ip/firewall/rule/" +:+ pretty id)
             (with_method "DELETE")).

Definition getDnsSettings (this : KeeneticControl) (net : Transport) : Outcome JSON :=
  request this net "/rci/show/ip/dns" no_options.

Definition configureDns (this : KeeneticControl) (net : Transport)
    (settings : JSON) : Outcome JSON :=
  request this net "/rci/ip/dns" (with_json "PATCH" settings).

Definition getDhcpServers (this : KeeneticControl) (net : Transport) : Outcome JSON :=
  request this net "/rci/show/ip/dhcp/server" no_options.

Definition configureDhcpServer (this : KeeneticControl) (net : Transport)
    (interface_name : string) (config : JSON) : Outcome JSON :=
  request this net ("/rci/ip/dhcp/server/" +:+ interface_name) (with_json "PATCH" config).

Definition getUsbDevices (this : KeeneticControl) (net : Transport) : Outcome JSON :=
  request this net "/rci/show/usb" no_options.

(** [response.output]: reading a property of [null] throws; a value that
    has no such property gives [undefined], here [None]. *)
Definition output_of (response : JSON) : Error + option JSON :=
  match response with
  | JNull => inl {| name := "TypeError"; message := "Cannot read properties of null" |}
  | JObject entries =>
      inr (snd <$> List.find (fun kv => String.eqb (fst kv) "output") entries)
  | _ => inr None
  end.

Definition read_output (o : Outcome JSON) : Outcome (option JSON) :=
  {| trace := trace o;
     settled := match settled o with inl e => inl e | inr v => output_of v end |}.

Definition executeCliCommand (this : KeeneticControl) (net : Transport)
    (command : string) : Outcome (option JSON) :=
  read_output (request this net "/rci/cli/execute"
                 (with_json "POST" (JObject [("command", JString command)]))).

Definition executeSshCommand (this : KeeneticControl) (net : Transport)
    (command : string) : Outcome (option JSON) :=
  read_output (request this net "/rci/ssh/execute"
                 (with_json "POST" (JObject [("command", JString command)]))).

(** The three transfers that call [fetch] themselves: one invocation, the
    credential header only, no signal, no retry. [result] is what the
    method returns from a response whose status is in the 2xx range. *)
Definition direct_fetch {A} (this : KeeneticControl) (net : Transport)
    (path : string) (m : string) (payload : option Body)
    (result : Response -> A) : Outcome A :=
  let url := getBaseUrl this +:+ path in
  let init := {| method := Some m; headers := Some (getAuthHeader this);
                 body := payload; signal := None |} in
  {| trace := [Fetch url init];
     settled := match net url init 0%nat with
                | inl e => inl e
                | inr response =>
                    if ok response then inr (result response)
                    else inl (api_error response)
                end |}.

Definition backupConfiguration (this : KeeneticControl) (net : Transport)
  : Outcome string :=
  direct_fetch this net "/rci/system/configuration/export" "GET" None blob.

Definition restoreConfiguration (this : KeeneticControl) (net : Transport)
    (configFile : string) : Outcome unit :=
  direct_fetch this net "/rci/system/configuration/import" "POST"
    (Some (FormBody [("file", configFile)])) (fun _ => tt).

Definition updateFirmware (this : KeeneticControl) (net : Transport)
    (firmwareFile : string) : Outcome unit :=
  direct_fetch this net "/rci/system/firmware/update" "POST"
    (Some (FormBody [("file", firmwareFile)])) (fun _ => tt).

Definition reboot (this : KeeneticControl) (net : Transport) : Outcome unit :=
  discard (request this net "/rci/system/reboot" (with_method "POST")).

(** ** Aggregate export *)

(** The values of a list of settled promises, or the first rejection. *)
Fixpoint all_settled {A} (rs : list (Error + A)) : Error + list A :=
  match rs with
  | [] => inr []
  | inl e :: _ => inl e
  | inr v :: rest =>
      match all_settled rest with
      | inl e => inl e
      | inr vs => inr (v :: vs)
      end
  end.

(** [Promise.all(ps)]. Every input has been started before the join, so
    the trace holds the steps of all of them; they are listed input by
    input although at run time they interleave. The join rejects as soon
    as one input rejects; arrival times are not modelled, and the reason
    reported is that of the first rejected input in array order. *)
Definition Promise_all {A} (ps : list (Outcome A)) : Outcome (list A) :=
  {| trace := concat (map trace ps);
     settled := all_settled (map settled ps) |}.

(** The nine reads of [getFullConfiguration], in the order of the array. *)
Definition full_configuration_reads (this : KeeneticControl) (net : Transport)
  : list (Outcome JSON) :=
  [ getSystemInfo this net; getInterfaces this net; getWifiNetworks this net;
    getConnectedClients this net; getVpnConnections this net;
    getUsbDevices this net; getFirewallRules this net;
    getDnsSettings this net; getDhcpServers this net ].

(** The object literal returned by [getFullConfiguration]; the array
    pattern binds each name to the element at its index. *)
Definition router_configuration (values : list JSON) : JSON :=
  let at_ i := nth i values JNull in
  JObject
    [ ("system", at_ 0%nat); ("interfaces", at_ 1%nat); ("wifi", at_ 2%nat);
      ("clients", at_ 3%nat); ("vpn", at_ 4%nat); ("usb", at_ 5%nat);
      ("firewall",
        JObject [ ("enabled", JBool true); ("defaultPolicy", JString "drop");
                  ("rules", at_ 6%nat) ]);
      ("dns", at_ 7%nat); ("dhcp", at_ 8%nat) ].

Definition getFullConfiguration (this : KeeneticControl) (net : Transport)
  : Outcome JSON :=
  let joined := Promise_all (full_configuration_reads this net) in
  {| trace := trace joined;
     settled := match settled joined with
                | inl e => inl e
                | inr values => inr (router_configuration values)
                end |}.

Definition exportAsYaml (this : KeeneticControl) (net : Transport) : Outcome string :=
  let config := getFullConfiguration this net in
  {| trace := trace config;
     settled := match settled config with
                | inl e => inl e
                | inr value => inr (jsonToYaml value 0)
                end |}.

Definition exportAsZud (this : KeeneticControl) (net : Transport) : Outcome string :=
  backupConfiguration this net.

(** ** The module-level singleton *)

(** An object created by [new KeeneticControl(...)]: its identity (two
    [new] never give the same one) and its fields. *)
Record Instance : Type := {
  identity : nat;
  fields : KeeneticControl
}.

(** The state of the module: the variable [keeneticControlInstance], and
    the number of objects created so far. *)
Record ModuleState : Type := {
  created : nat;
  keeneticControlInstance : option Instance
}.

(** The state when the module has just been loaded. *)
Definition initial_state : ModuleState :=
  {| created := 0; keeneticControlInstance := None |}.

Definition not_initialized : Error :=
  {| name := "Error";
     message := "KeeneticControl not initialized. Provide options for first call." |}.

(** [new KeeneticControl(options)] as an allocation. *)
Definition new_KeeneticControl (options : KeeneticControlOptions) (st : ModuleState)
  : Instance :=
  {| identity := created st; fields := constructor options |}.

Definition getKeeneticControl (options : option KeeneticControlOptions)
    (st : ModuleState) : (Error + Instance) * ModuleState :=
  match keeneticControlInstance st, options with
  | None, Some o =>
      let obj := new_KeeneticControl o st in
      (inr obj, {| created := S (created st); keeneticControlInstance := Some obj |})
  | None, None => (inl not_initialized, st)
  | Some obj, _ => (inr obj, st)
  end.

Definition initKeeneticControl (options : KeeneticControlOptions)
    (st : ModuleState) : Instance * ModuleState :=
  let obj := new_KeeneticControl options st in
  (obj, {| created := S (created st); keeneticControlInstance := Some obj |}).

(** ** The operation surface as a whole *)

(** A call of one of the operations that map to a single endpoint. *)
Inductive Operation : Type :=
| TestConnection
| GetSystemInfo
| GetInterfaces
| GetInterface (name : string)
| ConfigureInterface (name : string) (config : JSON)
| GetWifiNetworks
| ConfigureWifiNetwork (ssid : string) (config : JSON)
| CreateWifiNetwork (config : JSON)
| DeleteWifiNetwork (ssid : string)
| GetConnectedClients
| BlockClient (mac : string)
| UnblockClient (mac : string)
| GetVpnConnections
| ConfigureVpn (type : string) (config : JSON)
| GetFirewallRules
| AddFirewallRule (rule : JSON)
| UpdateFirewallRule (id : Z) (rule : JSON)
| DeleteFirewallRule (id : Z)
| GetDnsSettings
| ConfigureDns (settings : JSON)
| GetDhcpServers
| ConfigureDhcpServer (interface_name : string) (config : JSON)
| GetUsbDevices
| ExecuteCliCommand (command : string)
| ExecuteSshCommand (command : string)
| BackupConfiguration
| RestoreConfiguration (configFile : string)
| UpdateFirmware (firmwareFile : string)
| Reboot.

(** The steps of the method that the call names. *)
Definition steps (this : KeeneticControl) (net : Transport) (op : Operation)
  : list Event :=
  match op with
  | TestConnection => trace (testConnection this net)
  | GetSystemInfo => trace (getSystemInfo this net)
  | GetInterfaces => trace (getInterfaces this net)
  | GetInterface name => trace (getInterface this net name)
  | ConfigureInterface name config => trace (configureInterface this net name config)
  | GetWifiNetworks => trace (getWifiNetworks this net)
  | ConfigureWifiNetwork ssid config => trace (configureWifiNetwork this net ssid config)
  | CreateWifiNetwork config => trace (createWifiNetwork this net config)
  | DeleteWifiNetwork ssid => trace (deleteWifiNetwork this net ssid)
  | GetConnectedClients => trace (getConnectedClients this net)
  | BlockClient mac => trace (blockClient this net mac)
  | UnblockClient mac => trace (unblockClient this net mac)
  | GetVpnConnections => trace (getVpnConnections this net)
  | ConfigureVpn type config => trace (configureVpn this net type config)
  | GetFirewallRules => trace (getFirewallRules this net)
  | AddFirewallRule rule => trace (addFirewallRule this net rule)
  | UpdateFirewallRule id rule => trace (updateFirewallRule this net id rule)
  | DeleteFirewallRule id => trace (deleteFirewallRule this net id)
  | GetDnsSettings => trace (getDnsSettings this net)
  | ConfigureDns settings => trace (configureDns this net settings)
  | GetDhcpServers => trace (getDhcpServers this net)
  | ConfigureDhcpServer iface config => trace (configureDhcpServer this net iface config)
  | GetUsbDevices => trace (getUsbDevices this net)
  | ExecuteCliCommand command => trace (executeCliCommand this net command)
  | ExecuteSshCommand command => trace (executeSshCommand this net command)
  | BackupConfiguration => trace (backupConfiguration this net)
  | RestoreConfiguration file => trace (restoreConfiguration this net file)
  | UpdateFirmware file => trace (updateFirmware this net file)
  | Reboot => trace (reboot this net)
  end.

(** The request line of an invocation: method sent, and URL. *)
Definition request_line (ev : Event) : option (string * string) :=
  match ev with
  | Fetch url init => Some (sent_method init, url)
  | Wait _ => None
  end.

(** The request line of the first step of a call. *)
Definition first_request (this : KeeneticControl) (net : Transport) (op : Operation)
  : option (string * string) :=
  match steps this net op with
  | ev :: _ => request_line ev
  | [] => None
  end.

(** The body of the first invocation of a call. *)
Definition first_body (this : KeeneticControl) (net : Transport) (op : Operation)
  : option Body :=
  match steps this net op with
  | Fetch _ init :: _ => body init
  | _ => None
  end.

(** A trace conforms to a method and a path when it starts with an
    invocation of that path with that method, and every invocation in it
    has that request line. *)
Definition conforms (this : KeeneticControl) (m path : string) (tr : list Event)
  : Prop :=
  (exists init rest,
     tr = Fetch (getBaseUrl this +:+ path) init :: rest /\ sent_method init = m) /\
  Forall (fun ev => is_fetch ev = true ->
                    request_line ev = Some (m, getBaseUrl this +:+ path)) tr.

(** The table of section 4.2 of the specification, row by row: the
    method and the path of each operation. *)
Module Table.

Definition method (op : Operation) : string :=
  match op with
  | TestConnection => "GET"
  | GetSystemInfo => "GET"
  | GetInterfaces | GetInterface _ => "GET"
  | ConfigureInterface _ _ => "PATCH"
  | GetWifiNetworks => "GET"
  | CreateWifiNetwork _ => "POST"
  | ConfigureWifiNetwork _ _ => "PATCH"
  | DeleteWifiNetwork _ => "DELETE"
  | GetConnectedClients => "GET"
  | BlockClient _ | UnblockClient _ => "POST"
  | GetVpnConnections => "GET"
  | ConfigureVpn _ _ => "PATCH"
  | GetFirewallRules => "GET"
  | AddFirewallRule _ => "POST"
  | UpdateFirewallRule _ _ => "PATCH"
  | DeleteFirewallRule _ => "DELETE"
  | GetDnsSettings => "GET"
  | ConfigureDns _ => "PATCH"
  | GetDhcpServers => "GET"
  | ConfigureDhcpServer _ _ => "PATCH"
  | GetUsbDevices => "GET"
  | ExecuteCliCommand _ | ExecuteSshCommand _ => "POST"
  | BackupConfiguration => "GET"
  | RestoreConfiguration _ => "POST"
  | UpdateFirmware _ => "POST"
  | Reboot => "POST"
  end.

Definition path (op : Operation) : string :=
  match op with
  | TestConnection => "/rci/system/status"
  | GetSystemInfo => "/rci/show/system"
  | GetInterfaces => "/rci/show/interface"
  | GetInterface name => "/rci/show/interface/" +:+ name
  | ConfigureInterface name _ => "/rci/interface/" +:+ name
  | GetWifiNetworks => "/rci/show/interface/wireless"
  | CreateWifiNetwork _ => "/rci/wireless/ssid"
  | ConfigureWifiNetwork ssid _ => "/rci/wireless/ssid/" +:+ ssid
  | DeleteWifiNetwork ssid => "/rci/wireless/ssid/" +:+ ssid
  | GetConnectedClients => "/rci/show/ip/hotspot"
  | BlockClient mac => "/rci/ip/hotspot/mac/" +:+ mac +:+ "/block"
  | UnblockClient mac => "/rci/ip/hotspot/mac/" +:+ mac +:+ "/unblock"
  | GetVpnConnections => "/rci/show/vpn"
  | ConfigureVpn type _ => "/rci/vpn/" +:+ type
  | GetFirewallRules => "/rci/show/ip/firewall"
  | AddFirewallRule _ => "/rci/ip/firewall/rule"
  | UpdateFirewallRule id _ => "/rci/ip/firewall/rule/" +:+ pretty id
  | DeleteFirewallRule id => "/rci/ip/firewall/rule/" +:+ pretty id
  | GetDnsSettings => "/rci/show/ip/dns"
  | ConfigureDns _ => "/rci/ip/dns"
  | GetDhcpServers => "/rci/show/ip/dhcp/server"
  | ConfigureDhcpServer iface _ => "/rci/ip/dhcp/server/" +:+ iface
  | GetUsbDevices => "/rci/show/usb"
  | ExecuteCliCommand _ => "/rci/cli/execute"
  | ExecuteSshCommand _ => "/rci/ssh/execute"
  | BackupConfiguration => "/rci/system/configuration/export"
  | RestoreConfiguration _ => "/rci/system/configuration/import"
  | UpdateFirmware _ => "/rci/system/firmware/update"
  | Reboot => "/rci/system/reboot"
  end.

(** The nine reads of the aggregate export, as the specification lists
    them: system, interfaces, Wi-Fi, clients, VPN, USB, firewall rules,
    DNS, DHCP. *)
Definition aggregate_reads : list Operation :=
  [ GetSystemInfo; GetInterfaces; GetWifiNetworks; GetConnectedClients;
    GetVpnConnections; GetUsbDevices; GetFirewallRules; GetDnsSettings;
    GetDhcpServers ].

End Table.

(** ** Sequences of calls on the singleton *)

(** A call of one of the two exported functions. *)
Inductive Call : Type :=
| Get (options : option KeeneticControlOptions)
| Init (options : KeeneticControlOptions).

(** The module state after a call. *)
Definition after (call : Call) (st : ModuleState) : ModuleState :=
  match call with
  | Get options => snd (getKeeneticControl options st)
  | Init options => snd (initKeeneticControl options st)
  end.

(** The states the module can be in: the initial one, and those that a
    call leads to. *)
Inductive reachable : ModuleState -> Prop :=
| reachable_initial : reachable initial_state
| reachable_after call st : reachable st -> reachable (after call st).

(** The results of a sequence of [getKeeneticControl] calls, in order,
    and the state after them. *)
Fixpoint get_each (calls : list (option KeeneticControlOptions)) (st : ModuleState)
  : list (Error + Instance) * ModuleState :=
  match calls with
  | [] => ([], st)
  | options :: rest =>
      let (result, st1) := getKeeneticControl options st in
      let (results, st2) := get_each rest st1 in
      (result :: results, st2)
  end.

(** The object held, if any, was created earlier. *)
Definition well_formed (st : ModuleState) : Prop :=
  forall obj, keeneticControlInstance st = Some obj -> (identity obj < created st)%nat.

(** ** Concrete clients and transports used in the examples *)

Module Example.

Definition admin : KeeneticCredentials :=
  {| host := "192.168.1.1"; username := "admin"; password := "admin";
     port := None; secure := None |}.

(** Options that give the credentials and a retry count only. *)
Definition options_with (creds : KeeneticCredentials) (retries : option Z)
  : KeeneticControlOptions :=
  {| Options.credentials := creds; Options.timeout := None;
     Options.retryCount := retries; Options.retryDelay := None;
     Options.debug := None |}.

(** [new KeeneticControl({credentials: admin})] *)
Definition client : KeeneticControl := constructor (options_with admin None).

(** Credentials that name port 0. *)
Definition admin_port_zero : KeeneticCredentials :=
  {| host := "192.168.1.1"; username := "admin"; password := "admin";
     port := Some 0; secure := None |}.

Definition client_port_zero : KeeneticControl :=
  constructor (options_with admin_port_zero None).

(** Credentials for plain HTTP on port 8080. *)
Definition admin_insecure : KeeneticCredentials :=
  {| host := "192.168.1.1"; username := "admin"; password := "admin";
     port := Some 8080; secure := Some false |}.

Definition client_insecure : KeeneticControl :=
  constructor (options_with admin_insecure None).

(** Options in which every tunable is given as 0. *)
Definition options_all_zero : KeeneticControlOptions :=
  {| Options.credentials := admin; Options.timeout := Some 0;
     Options.retryCount := Some 0; Options.retryDelay := Some 0;
     Options.debug := None |}.


(** A client configured for a single retry. *)
Definition client_one_retry : KeeneticControl :=
  constructor (options_with admin (Some 1)).

(** A client constructed with [retryCount: 0]. *)
Definition client_zero_retry : KeeneticControl :=
  constructor (options_with admin (Some 0)).

(** [200 OK] carrying the JSON text of [value]. *)
Definition ok_json (value : JSON) : Response :=
  {| status := 200; statusText := "OK"; json := inr value;
     blob := Json.stringify value |}.

(** [200 OK] carrying a body that is not JSON text. *)
Definition ok_not_json : Response :=
  {| status := 200; statusText := "OK";
     json := inl {| name := "SyntaxError"; message := "Unexpected token <" |};
     blob := "<html></html>" |}.

Definition server_error : Response :=
  {| status := 500; statusText := "Internal Server Error";
     json := inl {| name := "SyntaxError"; message := "Unexpected end of JSON input" |};
     blob := "" |}.

(** A stub server that gives the same response to every invocation. *)
Definition always (response : Response) : Transport :=
  fun _ _ _ => inr response.

(** A stub server that answers 500 to the first [k] invocations of a
    call and [200] with [value] afterwards. *)
Definition fails_then (k : nat) (value : JSON) : Transport :=
  fun _ _ i => if (i <? k)%nat then inr server_error else inr (ok_json value).

Definition status_ok : JSON := JObject [("status", JString "ok")].

(** A stub server on which the DNS read fails and every other call
    succeeds. *)
Definition dns_down : Transport :=
  fun url _ _ =>
    if String.eqb url "https://192.168.1.1/rci/show/ip/dns"
    then inr server_error
    else inr (ok_json (JString url)).

Definition not_found : Response :=
  {| status := 404; statusText := "Not Found";
     json := inl {| name := "SyntaxError"; message := "Unexpected end of JSON input" |};
     blob := "" |}.

(** A stub server that answers 500 to the first invocation of a call and
    404 to the later ones. *)
Definition gone_after_error : Transport :=
  fun _ _ i => if (i <? 1)%nat then inr server_error else inr not_found.

End Example.

(** ** Shapes of traces *)

(** The steps of a pipeline call that invokes the transport [S k] times:
    every invocation but the last is followed by a wait of [d]
    milliseconds. *)
Fixpoint retry_trace (url : string) (init : RequestInit) (d : Z) (k : nat)
  : list Event :=
  match k with
  | O => [Fetch url init]
  | S k' => Fetch url init :: Wait d :: retry_trace url init d k'
  end.

(** The durations of the waits of a trace, in order. *)
Fixpoint waits (tr : list Event) : list Z :=
  match tr with
  | [] => []
  | Wait ms :: rest => ms :: waits rest
  | Fetch _ _ :: rest => waits rest
  end.

(** ** Lines of a rendered text *)

Definition is_line_feed (c : ascii) : bool := (N_of_ascii c =? 10)%N.

(** Whether a string holds a line feed. *)
Fixpoint has_line_feed (s : string) : bool :=
  match s with
  | EmptyString => false
  | String c rest => is_line_feed c || has_line_feed rest
  end.

(** Puts a character in front of the first line. *)
Definition cons_first (c : ascii) (ls : list string) : list string :=
  match ls with
  | [] => [String c EmptyString]
  | l :: rest => String c l :: rest
  end.

(** [s.split("\n")] *)
Fixpoint lines (s : string) : list string :=
  match s with
  | EmptyString => [EmptyString]
  | String c rest =>
      if is_line_feed c then EmptyString :: lines rest
      else cons_first c (lines rest)
  end.

(** A line that starts with [n] spaces. *)
Definition indented (n : nat) (line : string) : Prop :=
  exists rest, line = Js.spaces n +:+ rest.

(** A JSON value in which no string and no property name holds a line
    feed. *)
Fixpoint single_line_texts (v : JSON) : bool :=
  match v with
  | JString s => negb (has_line_feed s)
  | JArray items => forallb single_line_texts items
  | JObject entries =>
      forallb (fun kv => negb (has_line_feed (fst kv)) && single_line_texts (snd kv))
        entries
  | _ => true
  end.

(** A text in which every character is a digit or a minus sign. *)
Fixpoint numeral (s : string) : bool :=
  match s with
  | EmptyString => true
  | String c rest =>
      let n := N_of_ascii c in
      (((48 <=? n) && (n <=? 57)) || (n =? 45))%N && numeral rest
  end.

(** A string made of white space only. *)
Fixpoint all_white_space (s : string) : bool :=
  match s with
  | EmptyString => true
  | String c rest => Js.is_white_space c && all_white_space rest
  end.

(** The text of one property in the block of an object rendered at
    [indent]. *)
Definition yaml_entry (indent : nat) (key : string) (value : JSON) : string :=
  Js.spaces indent +:+ key
  +:+ (if nonempty_container value then ":" +:+ Js.nl else ": ")
  +:+ jsonToYaml value (indent + 2).

(** The text of one item in the block of an array rendered at [indent]. *)
Definition yaml_item (indent : nat) (item : JSON) : string :=
  Js.spaces indent +:+ "- " +:+ Js.trimStart (jsonToYaml item (indent + 2)).

(** The two facts that the induction carries: blocks are indented, and
    what is not a block is a single line. *)
Definition well_rendered (v : JSON) : Prop :=
  single_line_texts v = true ->
  forall n,
    (nonempty_container v = true -> Forall (indented n) (lines (jsonToYaml v n))) /\
    (nonempty_container v = false -> has_line_feed (jsonToYaml v n) = false).

(** ** Sequences of calls on the singleton, continued *)

(** The module state after a sequence of calls. *)
Fixpoint run (calls : list Call) (st : ModuleState) : ModuleState :=
  match calls with
  | [] => st
  | call :: rest => run rest (after call st)
  end.

(** The options of the last [initKeeneticControl] of a sequence. *)
Fixpoint last_init (calls : list Call) : option KeeneticControlOptions :=
  match calls with
  | [] => None
  | call :: rest =>
      match last_init rest with
      | Some o => Some o
      | None => match call with Init o => Some o | Get _ => None end
      end
  end.

(** The options of the first [getKeeneticControl] of a sequence that
    supplies some. *)
Fixpoint first_get (calls : list Call) : option KeeneticControlOptions :=
  match calls with
  | [] => None
  | Get (Some o) :: _ => Some o
  | _ :: rest => first_get rest
  end.

(** The lines that a property takes in the block of an object rendered
    at [indent]: the name and the value on one line, or, for a non-empty
    container, the name on a line of its own and then the lines of the
    block of the value. *)
Definition property_lines (indent : nat) (key : string) (value : JSON) : list string :=
  if nonempty_container value
  then (Js.spaces indent +:+ key +:+ ":") :: lines (jsonToYaml value (indent + 2))
  else lines (Js.spaces indent +:+ key +:+ ": " +:+ jsonToYaml value (indent + 2)).

(** ** More platform functions *)

Module JsText.

(** [s.trimEnd()] *)
Fixpoint trimEnd (s : string) : string :=
  match s with
  | EmptyString => EmptyString
  | String c rest =>
      match trimEnd rest with
      | EmptyString => if Js.is_white_space c then EmptyString else String c EmptyString
      | kept => String c kept
      end
  end.

(** [s.trim()] *)
Definition trim (s : string) : string := trimEnd (Js.trimStart s).

(** Lower case of one code unit below 256: the letters A to Z, and the
    accented capitals from 192 to 222 except the multiplication sign. *)
Definition lower (c : ascii) : ascii :=
  let n := N_of_ascii c in
  if (((65 <=? n) && (n <=? 90)) || ((192 <=? n) && (n <=? 222) && negb (n =? 215)))%N
  then ascii_of_N (n + 32)
  else c.

(** [s.toLowerCase()] *)
Fixpoint toLowerCase (s : string) : string :=
  match s with
  | EmptyString => EmptyString
  | String c rest => String (lower c) (toLowerCase rest)
  end.

(** [String(v)] for a JSON value, as a template literal converts it. *)
Fixpoint to_string (v : JSON) : string :=
  match v with
  | JNull => "null"
  | JBool b => if b then "true" else "false"
  | JNumber n => pretty n
  | JString s => s
  | JArray items =>
      Js.join ","
        (map (fun item => match item with JNull => "" | _ => to_string item end) items)
  | JObject _ => "[object Object]"
  end.

(** The same for a value that may be [undefined]. *)
Definition to_string_opt (v : option JSON) : string :=
  match v with
  | Some value => to_string value
  | None => "undefined"
  end.

End JsText.

(** ** The simulated SSH client, [SSH2Client] *)

(** What the handlers given to the client receive, in order. The
    handlers are taken to record their argument and return; a handler
    that throws is not represented. *)
Inductive Emitted : Type :=
| Data (data : string)
| Failed (error : Error)
| Closed.

Module SSH2Options.
(** The argument of the constructor; for a handler, whether it is
    given. *)
Record t : Type := {
  host : string;
  username : string;
  password : string;
  port : option Z;
  onData : bool;
  onError : bool;
  onClose : bool
}.
End SSH2Options.

Module SSH2Client.

Definition crlf : string := String "013"%char (String "010"%char EmptyString).

(** The fields of the object. [keeneticControl] is [None] when the
    field is [undefined], as it is declared. *)
Record t : Type := {
  host : string;
  username : string;
  password : string;
  port : Z;
  connected : bool;
  onData : bool;
  onError : bool;
  onClose : bool;
  keeneticControl : option Instance
}.

(** [new SSH2Client(options)] in the module state [st]. The name
    [getKeeneticControl] is not bound in the module of the terminal: its
    import is commented out. Evaluating the call in the [try] block
    throws a ReferenceError, the [catch] swallows it, and the field
    [keeneticControl] stays [undefined], whatever the module state
    holds. *)
Definition constructor (options : SSH2Options.t) (st : ModuleState) : t :=
  {| host := SSH2Options.host options;
     username := SSH2Options.username options;
     password := SSH2Options.password options;
     port := Js.or_default (SSH2Options.port options) 22;
     connected := false;
     onData := SSH2Options.onData options;
     onError := SSH2Options.onError options;
     onClose := SSH2Options.onClose options;
     keeneticControl := None |}.

(** What a method call leaves behind: the object, what the handlers
    received, the steps made on the transport, and what the returned
    promise settles to. *)
Record Step : Type := {
  client : t;
  emitted : list Emitted;
  invoked : list Event;
  result : Error + unit
}.

Definition set_connected (this : t) (b : bool) : t :=
  {| host := host this; username := username this; password := password this;
     port := port this; connected := b; onData := onData this;
     onError := onError this; onClose := onClose this;
     keeneticControl := keeneticControl this |}.

(** The prompt written after the welcome message and after each
    command. *)
Definition prompt (this : t) : string :=
  username this +:+ "@" +:+ host this +:+ ":~$ ".

(** What [onData] receives when it is given. *)
Definition data (this : t) (chunks : list string) : list Emitted :=
  if onData this then map Data chunks else [].

Definition connect (this : t) : Step :=
  {| client := set_connected this true;
     emitted :=
       data this
         [ "SSH2 connection established to " +:+ host this +:+ ":"
           +:+ pretty (port this) +:+ crlf;
           "Welcome to Keenetic Giga (KN-1010)" +:+ crlf;
           prompt this ];
     invoked := [];
     result := inr tt |}.

Definition help_text : string :=
  Js.join Js.nl
    [ "";
      "Available commands:";
      "  system        - System commands and information";
      "  interface     - Network interface configuration";
      "  ip            - IP configuration";
      "  dns           - DNS settings";
      "  firewall      - Firewall configuration";
      "  vpn           - VPN settings";
      "  wifi          - Wi-Fi configuration";
      "  usb           - USB device management";
      "  show          - Display system information";
      "  restart       - Restart the router";
      "  save          - Save configuration";
      "  exit          - Exit CLI";
      "" ].

Definition system_text : string :=
  Js.join Js.nl
    [ "";
      "Model: Keenetic Giga (KN-1010)";
      "Firmware: 3.7.5";
      "Hardware: KN-1010";
      "Serial Number: S1234567890";
      "Uptime: 4 days, 21:11:41";
      "CPU Usage: 15%";
      "Memory Usage: 42%";
      ("Temperature: 48" +:+ (String "176"%char EmptyString) +:+ "C");
      "" ].

Definition interface_text : string :=
  Js.join Js.nl
    [ "";
      "Interfaces:";
      "WAN: Ethernet, Connected, 300 Mbps";
      "LAN1: Ethernet, Connected, 100 Mbps";
      "LAN2: Ethernet, Not connected";
      "LAN3: Ethernet, Not connected";
      "LAN4: Ethernet, Not connected";
      "SFP: Not connected";
      "" ].

Definition wifi_text : string :=
  Js.join Js.nl
    [ "";
      "Wi-Fi networks:";
      "prolograms     - 2.4GHz, Channel 6, WPA2-PSK";
      "prolograms_5g  - 5GHz, Channel 36, WPA2-PSK";
      "" ].

Definition getSimulatedResponse (command : string) : string :=
  let cmd := JsText.toLowerCase (JsText.trim command) in
  if String.eqb cmd "help" || String.eqb cmd "?" then help_text
  else if String.eqb cmd "show system" || String.eqb cmd "system show" then system_text
  else if String.eqb cmd "show interface" || String.eqb cmd "interface show"
  then interface_text
  else if String.eqb cmd "show wifi" || String.eqb cmd "wifi show" then wifi_text
  else if String.eqb cmd "exit" || String.eqb cmd "quit" || String.eqb cmd "logout"
  then "Logout"
  else "Command executed: " +:+ command.

(** The text shown for a command, and the steps made on the transport to
    get it: the answer of the router when the client holds a
    [KeeneticControl], a canned answer otherwise; an error becomes a
    text. *)
Definition output_for (this : t) (net : Transport) (command : string)
  : list Event * string :=
  match keeneticControl this with
  | Some obj =>
      let o := executeSshCommand (fields obj) net command in
      (trace o,
       match settled o with
       | inr output => JsText.to_string_opt output
       | inl error => "Error: " +:+ message error
       end)
  | None => ([], getSimulatedResponse command)
  end.

Definition not_connected : Error := {| name := "Error"; message := "Not connected" |}.

Definition execute (this : t) (net : Transport) (command : string) : Step :=
  if connected this then
    let (steps, output) := output_for this net command in
    {| client := this;
       emitted :=
         (data this [command +:+ crlf] ++ data this [output +:+ crlf; prompt this])%list;
       invoked := steps;
       result := inr tt |}
  else
    {| client := this; emitted := []; invoked := []; result := inl not_connected |}.

Definition disconnect (this : t) : t * list Emitted :=
  if connected this
  then (set_connected this false, if onClose this then [Closed] else [])
  else (this, []).

Definition isConnected (this : t) : bool := connected this.

(** A call of [connect] or of [disconnect]. *)
Inductive Action : Type :=
| Connect
| Disconnect.

(** The object and what the handlers received after a sequence of such
    calls. *)
Fixpoint perform (actions : list Action) (this : t) : t * list Emitted :=
  match actions with
  | [] => (this, [])
  | Connect :: rest =>
      let s := connect this in
      let (final, later) := perform rest (client s) in
      (final, (emitted s ++ later)%list)
  | Disconnect :: rest =>
      let (next, now) := disconnect this in
      let (final, later) := perform rest next in
      (final, (now ++ later)%list)
  end.

Definition is_closed (e : Emitted) : bool :=
  match e with
  | Closed => true
  | _ => false
  end.

Definition is_connect (a : Action) : bool :=
  match a with
  | Connect => true
  | Disconnect => false
  end.

End SSH2Client.

(** ** Concrete SSH clients used in the examples *)

Module ExampleSsh.

(** The options the terminal passes: credentials and the three
    handlers, no port. *)
Definition ssh_options : SSH2Options.t :=
  {| SSH2Options.host := "192.168.1.1"; SSH2Options.username := "admin";
     SSH2Options.password := "admin"; SSH2Options.port := None;
     SSH2Options.onData := true; SSH2Options.onError := true;
     SSH2Options.onClose := true |}.


End ExampleSsh.

(** ** The command line of the terminal, [SSH2Terminal] *)

Module Terminal.

(** The three pieces of component state that the command line uses:
    [command], [historyIndex] and [commandHistory]. *)
Record InputState : Type := {
  command : string;
  historyIndex : Z;
  commandHistory : list string
}.

(** The state of a component that has just been mounted. *)
Definition initial : InputState :=
  {| command := ""; historyIndex := -1; commandHistory := [] |}.

(** [commandHistory[i]]: [undefined] outside the array. *)
Definition entry (history : list string) (i : Z) : option string :=
  if (0 <=? i)%Z then nth_error history (Z.to_nat i) else None.

(** [newIndex >= 0 && commandHistory[newIndex]]: the entry when the
    index is not negative and the entry is a non-empty string. *)
Definition recalled (history : list string) (i : Z) : option string :=
  if (0 <=? i)%Z then
    match entry history i with
    | Some text => if String.eqb text "" then None else Some text
    | None => None
    end
  else None.

(** [handleKeyDown] for the key [key]. *)
Definition handleKeyDown (key : string) (st : InputState) : InputState :=
  if String.eqb key "ArrowUp" then
    let newIndex :=
      Z.min (historyIndex st + 1) (Z.of_nat (length (commandHistory st)) - 1) in
    {| command := match recalled (commandHistory st) newIndex with
                  | Some text => text
                  | None => command st
                  end;
       historyIndex := newIndex;
       commandHistory := commandHistory st |}
  else if String.eqb key "ArrowDown" then
    let newIndex := Z.max (historyIndex st - 1) (-1) in
    {| command := match recalled (commandHistory st) newIndex with
                  | Some text => text
                  | None => ""
                  end;
       historyIndex := newIndex;
       commandHistory := commandHistory st |}
  else st.

(** The input handler: [setCommand(e.target.value)]. *)
Definition handleChange (value : string) (st : InputState) : InputState :=
  {| command := value; historyIndex := historyIndex st;
     commandHistory := commandHistory st |}.

(** What [handleSubmit] does to the command line: nothing when the
    command is blank; otherwise the command is put in front of the first
    19 entries of the history, the index is reset, and the input is
    cleared. The exchange with the client that happens in between does
    not touch these three pieces of state. *)
Definition handleSubmit (st : InputState) : InputState :=
  if String.eqb (JsText.trim (command st)) "" then st
  else
    {| command := "";
       historyIndex := -1;
       commandHistory := command st :: firstn 19 (commandHistory st) |}.

(** What the user does on the command line. *)
Inductive Input : Type :=
| Type_ (value : string)
| Press (key : string)
| Submit.

Definition react (input : Input) (st : InputState) : InputState :=
  match input with
  | Type_ value => handleChange value st
  | Press key => handleKeyDown key st
  | Submit => handleSubmit st
  end.

(** The state after a sequence of inputs. *)
Fixpoint replay (inputs : list Input) (st : InputState) : InputState :=
  match inputs with
  | [] => st
  | input :: rest => replay rest (react input st)
  end.

(** The history holds at most 20 commands, none of them blank, and the
    index is [-1] or the position of one of them. *)
Definition consistent (st : InputState) : Prop :=
  (length (commandHistory st) <= 20)%nat /\
  -1 <= historyIndex st <= Z.of_nat (length (commandHistory st)) - 1 /\
  Forall (fun text => JsText.trim text <> "") (commandHistory st).

End Terminal.

Module ExampleTerminal.

(** Two commands are submitted, then arrow up is pressed twice and arrow
    down once. *)
Definition browsing : Terminal.InputState :=
  Terminal.handleKeyDown "ArrowDown"
    (Terminal.replay
       [ Terminal.Type_ "show system"; Terminal.Submit;
         Terminal.Type_ "help"; Terminal.Submit;
         Terminal.Press "ArrowUp"; Terminal.Press "ArrowUp" ]
       Terminal.initial).

End ExampleTerminal.

(** * Properties *)

(** ** The request pipeline *)

Section Pipeline.

Variable this : KeeneticControl.
Variable net : Transport.
Variable endpoint : string.
Variable options : RequestInit.

(** The invocation of the transport that every attempt of the call makes. *)
Let url : string := getBaseUrl this +:+ endpoint.
Let init : RequestInit := request_init this options.

Local Abbreviation ans := (answer this net endpoint options).

Lemma request_from_step (retries : Z) (made : nat) :
  request_from this net endpoint options retries made =
  match ans made with
  | inr value => {| trace := [Fetch url init]; settled := inr value |}
  | inl error =>
      if decide (0 < retries)
      then prepend [Fetch url init; Wait (retryDelay this)]
             (request_from this net endpoint options (retries - 1) (S made))
      else {| trace := [Fetch url init]; settled := inl error |}
  end.
Proof.
  rewrite request_from_equation_1. unfold answer, url, init.
  destruct (attempt _) as [e|v]; simpl; [|reflexivity].
  destruct (decide (0 < retries)); reflexivity.
Qed.

Lemma invocations_prepend {A} (o : Outcome A) :
  invocations (trace (prepend [Fetch url init; Wait (retryDelay this)] o))
  = S (invocations (trace o)).
Proof. reflexivity. Qed.

(** Every step of the call is the same invocation or a wait of
    [retryDelay]. *)
Lemma request_from_events (retries : Z) (made : nat) :
  Forall (fun ev => ev = Fetch url init \/ ev = Wait (retryDelay this))
    (trace (request_from this net endpoint options retries made)).
Proof.
  remember (Z.to_nat retries) as budget eqn:Hb.
  revert retries made Hb.
  induction budget as [|budget IH]; intros retries made Hb;
    rewrite request_from_step; destruct (ans made) as [e|v]; simpl;
    try (repeat constructor; fail).
  - destruct (decide (0 < retries)); [lia|]. repeat constructor.
  - destruct (decide (0 < retries)); [|repeat constructor].
    simpl. constructor; [now left|]. constructor; [now right|].
    apply IH. lia.
Qed.

(** The call starts with an invocation of the transport. *)
Lemma request_from_head (retries : Z) (made : nat) :
  exists rest,
    trace (request_from this net endpoint options retries made)
    = Fetch url init :: rest.
Proof.
  rewrite request_from_step. destruct (ans made); simpl; eauto.
  destruct (decide (0 < retries)); simpl; eauto.
Qed.

(** [k] failed attempts followed by a successful one, within the budget. *)
Lemma retry_until_success (k : nat) :
  forall (retries : Z) (made : nat) (value : JSON),
    (forall i, (i < k)%nat -> exists e, ans (made + i) = inl e) ->
    ans (made + k) = inr value ->
    Z.of_nat k <= retries ->
    let o := request_from this net endpoint options retries made in
    settled o = inr value /\ invocations (trace o) = S k.
Proof.
  induction k as [|k IH]; intros retries made value Hfail Hok Hle o; subst o;
    rewrite request_from_step.
  - rewrite Nat.add_0_r in Hok. rewrite Hok. split; reflexivity.
  - destruct (Hfail 0%nat ltac:(lia)) as [e He].
    rewrite Nat.add_0_r in He. rewrite He.
    destruct (decide (0 < retries)); [|lia].
    rewrite invocations_prepend. simpl settled.
    destruct (IH (retries - 1) (S made) value) as [Hs Hn].
    + intros i Hi. replace (S made + i)%nat with (made + S i)%nat by lia.
      apply Hfail. lia.
    + replace (S made + k)%nat with (made + S k)%nat by lia. exact Hok.
    + lia.
    + split; [exact Hs | now rewrite Hn].
Qed.

(** More failed attempts than the budget allows. *)
Lemma retry_exhausted (n : nat) :
  forall (retries : Z) (made : nat),
    retries = Z.of_nat n ->
    (forall i, (i <= n)%nat -> exists e, ans (made + i) = inl e) ->
    let o := request_from this net endpoint options retries made in
    settled o = ans (made + n) /\ invocations (trace o) = S n.
Proof.
  induction n as [|n IH]; intros retries made Hn Hfail o; subst o;
    rewrite request_from_step;
    destruct (Hfail 0%nat ltac:(lia)) as [e He];
    rewrite Nat.add_0_r in He; rewrite He.
  - destruct (decide (0 < retries)); [lia|].
    rewrite Nat.add_0_r, He. split; reflexivity.
  - destruct (decide (0 < retries)); [|lia].
    rewrite invocations_prepend. simpl settled.
    destruct (IH (retries - 1) (S made)) as [Hs Hi].
    + lia.
    + intros i Hi. replace (S made + i)%nat with (made + S i)%nat by lia.
      apply Hfail. lia.
    + replace (made + S n)%nat with (S made + n)%nat by lia.
      split; [exact Hs | now rewrite Hi].
Qed.

(** Without a positive budget, one attempt is made. *)
Lemma request_from_no_budget (retries : Z) (made : nat) :
  retries <= 0 ->
  request_from this net endpoint options retries made
  = {| trace := [Fetch url init]; settled := ans made |}.
Proof.
  intros H. rewrite request_from_step. destruct (ans made); [|reflexivity].
  destruct (decide (0 < retries)); [lia | reflexivity].
Qed.

(** An attempt that made it to the transport and succeeded is the last. *)
Lemma success_ends_call (i : nat) :
  forall (retries : Z) (made : nat) (value : JSON),
    let o := request_from this net endpoint options retries made in
    (i < invocations (trace o))%nat ->
    ans (made + i) = inr value ->
    invocations (trace o) = S i /\ settled o = inr value.
Proof.
  induction i as [|i IH]; intros retries made value o; subst o;
    rewrite request_from_step; intros Hi Hok.
  - rewrite Nat.add_0_r in Hok. rewrite Hok. split; reflexivity.
  - destruct (ans made) as [e|v] eqn:Ha.
    + destruct (decide (0 < retries)).
      * rewrite invocations_prepend in *. simpl settled.
        destruct (IH (retries - 1) (S made) value) as [Hn Hs].
        -- lia.
        -- replace (S made + i)%nat with (made + S i)%nat by lia. exact Hok.
        -- split; [now rewrite Hn | exact Hs].
      * simpl in Hi. unfold invocations in Hi. simpl in Hi. lia.
    + unfold invocations in Hi. simpl in Hi. lia.
Qed.

(** Every attempt before the last invocation failed. *)
Lemma earlier_attempts_failed (i : nat) :
  forall (retries : Z) (made : nat),
    (S i < invocations (trace (request_from this net endpoint options retries made)))%nat ->
    exists e, ans (made + i) = inl e.
Proof.
  intros retries made H.
  destruct (ans (made + i)) as [e|v] eqn:Ha; [eauto|].
  destruct (success_ends_call i retries made v) as [Hn _]; [lia | exact Ha | lia].
Qed.

(** The call never makes more than [retries + 1] invocations. *)
Lemma invocations_bound (n : nat) :
  forall (retries : Z) (made : nat),
    retries <= Z.of_nat n ->
    (1 <= invocations (trace (request_from this net endpoint options retries made)) <= S n)%nat.
Proof.
  induction n as [|n IH]; intros retries made Hn;
    rewrite request_from_step; destruct (ans made) as [e|v];
    try (unfold invocations; simpl; lia).
  - destruct (decide (0 < retries)); [lia|]. unfold invocations; simpl; lia.
  - destruct (decide (0 < retries)); [|unfold invocations; simpl; lia].
    rewrite invocations_prepend.
    specialize (IH (retries - 1) (S made) ltac:(lia)). lia.
Qed.

End Pipeline.

(** The ways an attempt ends: it fails when [fetch] rejects (network
    error, or the abort raised by the timeout signal), when the status is
    outside the 2xx range, and when the body of a 2xx response is not
    JSON text; it succeeds with the parsed body of a 2xx response. *)
Lemma attempt_rejected (e : Error) : attempt (inl e) = inl e.
Proof. reflexivity. Qed.

Lemma attempt_not_ok (r : Response) :
  ok r = false -> attempt (inr r) = inl (api_error r).
Proof. intros H. simpl. now rewrite H. Qed.

Lemma attempt_ok (r : Response) : ok r = true -> attempt (inr r) = json r.
Proof. intros H. simpl. now rewrite H. Qed.

(** C1. Retry property: when the first [k] attempts of a call fail and
    attempt [k] succeeds with [value], a client whose retry count is
    [n >= k] returns [value] after exactly [k + 1] invocations of the
    transport, and a client whose retry count is [n < k] fails, with the
    error of its last attempt, after exactly [n + 1] invocations. *)
Theorem request_retry_property
    (this : KeeneticControl) (net : Transport) (endpoint : string)
    (options : RequestInit) (k : nat) (n : Z) (value : JSON) :
  retryCount this = n ->
  0 <= n ->
  (forall i, (i < k)%nat -> exists e, answer this net endpoint options i = inl e) ->
  answer this net endpoint options k = inr value ->
  let o := request this net endpoint options in
  (Z.of_nat k <= n ->
     settled o = inr value /\ invocations (trace o) = (k + 1)%nat) /\
  (n < Z.of_nat k ->
     (exists e, answer this net endpoint options (Z.to_nat n) = inl e /\
                settled o = inl e) /\
     Z.of_nat (invocations (trace o)) = n + 1).
Proof.
  intros Hn Hpos Hfail Hok o. subst o. unfold request. rewrite Hn. split.
  - intros Hle.
    destruct (retry_until_success this net endpoint options k n 0%nat value)
      as [Hs Hi]; try assumption.
    split; [exact Hs | rewrite Hi; lia].
  - intros Hlt.
    destruct (retry_exhausted this net endpoint options (Z.to_nat n) n 0%nat)
      as [Hs Hi].
    + lia.
    + intros i Hi. apply Hfail. lia.
    + split.
      * destruct (Hfail (Z.to_nat n) ltac:(lia)) as [e He].
        exists e. split; [exact He|]. rewrite Hs. exact He.
      * rewrite Hi. lia.
Qed.

(** The retry property at a stub that answers 500 twice and then 200:
    the default client (three retries) succeeds on the third invocation,
    a client with one retry fails after two. *)
Lemma request_retry_property_witness :
  (retryCount Example.client = 3 /\
   settled (request Example.client (Example.fails_then 2 Example.status_ok)
              "/rci/show/system" no_options) = inr Example.status_ok /\
   invocations (trace (request Example.client (Example.fails_then 2 Example.status_ok)
              "/rci/show/system" no_options)) = 3%nat) /\
  (retryCount Example.client_one_retry = 1 /\
   (exists e,
      answer Example.client_one_retry (Example.fails_then 2 Example.status_ok)
        "/rci/show/system" no_options (Z.to_nat 1) = inl e /\
      settled (request Example.client_one_retry
                 (Example.fails_then 2 Example.status_ok)
                 "/rci/show/system" no_options) = inl e) /\
   Z.of_nat (invocations (trace (request Example.client_one_retry
                         (Example.fails_then 2 Example.status_ok)
                         "/rci/show/system" no_options))) = 2).
Proof.
  split.
  - split; [reflexivity|].
    apply (request_retry_property Example.client
             (Example.fails_then 2 Example.status_ok)
             "/rci/show/system" no_options 2 3 Example.status_ok).
    + reflexivity.
    + lia.
    + intros i Hi. exists (api_error Example.server_error).
      destruct i as [|[|i]]; [reflexivity | reflexivity | lia].
    + reflexivity.
    + simpl. lia.
  - split; [reflexivity|].
    apply (request_retry_property Example.client_one_retry
             (Example.fails_then 2 Example.status_ok)
             "/rci/show/system" no_options 2 1 Example.status_ok).
    + reflexivity.
    + lia.
    + intros i Hi. exists (api_error Example.server_error).
      destruct i as [|[|i]]; [reflexivity | reflexivity | lia].
    + reflexivity.
    + simpl. lia.
Defined.

(** A response in the 2xx range with a JSON body, received by an
    invocation that the call made, ends the call with the parsed body. *)
Lemma success_is_final
    (this : KeeneticControl) (net : Transport) (endpoint : string)
    (options : RequestInit) (i : nat) (response : Response) (value : JSON) :
  (i < invocations (trace (request this net endpoint options)))%nat ->
  net (getBaseUrl this +:+ endpoint) (request_init this options) i = inr response ->
  ok response = true ->
  json response = inr value ->
  invocations (trace (request this net endpoint options)) = S i /\
  settled (request this net endpoint options) = inr value.
Proof.
  intros Hi Hnet Hok Hjson. unfold request in *.
  apply (success_ends_call this net endpoint options i); [exact Hi|].
  unfold answer. simpl. rewrite Hnet. simpl. rewrite Hok. exact Hjson.
Qed.

(** C2, as stated, fails: a POST that is answered [200] with a body that
    is not JSON text is issued again, four times in all with the default
    retry count, and the call rejects. *)
Lemma retry_after_2xx_counterexample :
  ok Example.ok_not_json = true /\
  invocations (trace (request Example.client (Example.always Example.ok_not_json)
                        "/rci/system/reboot" (with_method "POST"))) = 4%nat /\
  settled (request Example.client (Example.always Example.ok_not_json)
             "/rci/system/reboot" (with_method "POST"))
  = inl {| name := "SyntaxError"; message := "Unexpected token <" |}.
Proof. repeat split; reflexivity. Qed.

(** C2, amended. When an invocation of the transport made by a call
    receives a response with a status in the 2xx range whose body is JSON
    text, the call returns the parsed body and that invocation is the
    last: the transport is not invoked again. *)
Theorem no_retry_after_success
    (this : KeeneticControl) (net : Transport) (endpoint : string)
    (options : RequestInit) (i : nat) (response : Response) (value : JSON) :
  let o := request this net endpoint options in
  (i < invocations (trace o))%nat ->
  net (getBaseUrl this +:+ endpoint) (request_init this options) i = inr response ->
  ok response = true ->
  json response = inr value ->
  invocations (trace o) = S i /\ settled o = inr value.
Proof.
  intros o Hi Hnet Hok Hjson. subst o.
  now apply success_is_final with (response := response).
Qed.

Lemma no_retry_after_success_witness :
  invocations (trace (request Example.client (Example.fails_then 1 Example.status_ok)
                        "/rci/system/reboot" (with_method "POST"))) = 2%nat /\
  settled (request Example.client (Example.fails_then 1 Example.status_ok)
             "/rci/system/reboot" (with_method "POST")) = inr Example.status_ok.
Proof.
  apply (no_retry_after_success Example.client
           (Example.fails_then 1 Example.status_ok)
           "/rci/system/reboot" (with_method "POST") 1
           (Example.ok_json Example.status_ok) Example.status_ok).
  - vm_compute. lia.
  - reflexivity.
  - reflexivity.
  - reflexivity.
Defined.

(** ** The connectivity probe *)

(** Every step of a pipeline call is its own invocation or a wait. *)
Lemma request_events (this : KeeneticControl) (net : Transport)
    (endpoint : string) (options : RequestInit) :
  Forall (fun ev => ev = Fetch (getBaseUrl this +:+ endpoint) (request_init this options)
                    \/ ev = Wait (retryDelay this))
    (trace (request this net endpoint options)).
Proof. apply request_from_events. Qed.

Lemma request_head (this : KeeneticControl) (net : Transport)
    (endpoint : string) (options : RequestInit) :
  exists rest,
    trace (request this net endpoint options)
    = Fetch (getBaseUrl this +:+ endpoint) (request_init this options) :: rest.
Proof. apply request_from_head. Qed.

(** C3, as stated, fails: against a server that answers [200] to every
    invocation with a body that is not JSON text, the probe returns
    [false]. *)
Lemma probe_2xx_counterexample :
  (forall url init i,
     exists r, Example.always Example.ok_not_json url init i = inr r /\ ok r = true) /\
  settled (testConnection Example.client (Example.always Example.ok_not_json))
  = inr false.
Proof.
  split; [|reflexivity].
  intros url init i. exists Example.ok_not_json. split; reflexivity.
Qed.

(** C3, amended. The probe invokes the transport with GET on
    [/rci/system/status] and nothing else, and never throws. It returns
    [true] whenever one of its invocations receives a response with a 2xx
    status whose body is JSON text, whatever the parsed value. When every
    attempt fails, it returns [false] after [retryCount + 1] invocations. *)
Theorem testConnection_probe (this : KeeneticControl) (net : Transport) :
  let o := testConnection this net in
  let url := getBaseUrl this +:+ "/rci/system/status" in
  let init := request_init this no_options in
  (exists rest, trace o = Fetch url init :: rest) /\
  sent_method init = "GET" /\
  Forall (fun ev => ev = Fetch url init \/ ev = Wait (retryDelay this)) (trace o) /\
  (exists b, settled o = inr b) /\
  (forall i response value,
     (i < invocations (trace o))%nat ->
     net url init i = inr response ->
     ok response = true ->
     json response = inr value ->
     settled o = inr true) /\
  (0 <= retryCount this ->
   (forall i, exists e, answer this net "/rci/system/status" no_options i = inl e) ->
   settled o = inr false /\
   Z.of_nat (invocations (trace o)) = retryCount this + 1).
Proof.
  intros o url init. subst o url init. unfold testConnection. simpl trace. simpl settled.
  split; [apply request_head|].
  split; [reflexivity|].
  split; [apply request_events|].
  split.
  { destruct (settled (request this net "/rci/system/status" no_options)); eauto. }
  split.
  - intros i response value Hi Hnet Hok Hjson.
    destruct (success_is_final this net "/rci/system/status" no_options
                i response value Hi Hnet Hok Hjson) as [_ Hs].
    now rewrite Hs.
  - intros Hpos Hfail. unfold request.
    destruct (retry_exhausted this net "/rci/system/status" no_options
                (Z.to_nat (retryCount this)) (retryCount this) 0%nat) as [Hs Hn].
    + lia.
    + intros i _. apply Hfail.
    + rewrite Hs, Hn. destruct (Hfail (Z.to_nat (retryCount this))) as [e He].
      simpl. rewrite He. split; [reflexivity | lia].
Qed.

(** The scenario of the specification: the default client against a stub
    that answers [200] with a status object, and against a stub that
    answers [500] to every invocation. *)
Lemma testConnection_probe_witness :
  settled (testConnection Example.client
             (Example.always (Example.ok_json Example.status_ok))) = inr true /\
  (settled (testConnection Example.client (Example.always Example.server_error))
   = inr false /\
   Z.of_nat (invocations (trace (testConnection Example.client
                                   (Example.always Example.server_error)))) = 4).
Proof.
  split.
  - apply (testConnection_probe Example.client
             (Example.always (Example.ok_json Example.status_ok)))
      with (i := 0%nat) (response := Example.ok_json Example.status_ok)
           (value := Example.status_ok).
    + vm_compute. lia.
    + reflexivity.
    + reflexivity.
    + reflexivity.
  - apply (testConnection_probe Example.client (Example.always Example.server_error)).
    + vm_compute. discriminate.
    + intros i. exists (api_error Example.server_error). reflexivity.
Defined.

(** ** The aggregate export *)

Lemma all_settled_fulfilled {A} (vs : list A) :
  all_settled (map inr vs) = inr vs.
Proof. induction vs as [|v vs IH]; simpl; [reflexivity | now rewrite IH]. Qed.

Lemma all_settled_rejected {A} (rs : list (Error + A)) (e : Error) :
  In (inl e) rs -> exists e', all_settled rs = inl e' /\ In (inl e') rs.
Proof.
  induction rs as [|r rs IH]; intros Hin; [destruct Hin|].
  destruct r as [e0|v]; simpl.
  - exists e0. split; [reflexivity | now left].
  - destruct Hin as [Heq|Hin]; [discriminate|].
    destruct (IH Hin) as (e' & He' & Hin'). rewrite He'.
    exists e'. split; [reflexivity | now right].
Qed.

Lemma all_settled_values {A} (rs : list (Error + A)) (vs : list A) :
  all_settled rs = inr vs -> rs = map inr vs.
Proof.
  revert vs. induction rs as [|r rs IH]; intros vs H; simpl in H.
  - injection H as <-. reflexivity.
  - destruct r as [e|v]; [discriminate|].
    destruct (all_settled rs) as [e|vs'] eqn:Hrs; [discriminate|].
    injection H as <-. simpl. now rewrite (IH vs' eq_refl).
Qed.


Lemma getFullConfiguration_settled (this : KeeneticControl) (net : Transport) :
  settled (getFullConfiguration this net)
  = match all_settled (map settled (full_configuration_reads this net)) with
    | inl e => inl e
    | inr values => inr (router_configuration values)
    end.
Proof. reflexivity. Qed.

Lemma getFullConfiguration_trace (this : KeeneticControl) (net : Transport) :
  trace (getFullConfiguration this net)
  = concat (map (steps this net) Table.aggregate_reads).
Proof. reflexivity. Qed.

(** Each read of the aggregate is a GET of the table, and starts with
    the invocation of its path. *)
Lemma aggregate_read_head (this : KeeneticControl) (net : Transport) (op : Operation) :
  In op Table.aggregate_reads ->
  Table.method op = "GET" /\
  exists rest,
    steps this net op
    = Fetch (getBaseUrl this +:+ Table.path op) (request_init this no_options) :: rest.
Proof.
  intros Hop. simpl in Hop.
  repeat (destruct Hop as [<-|Hop];
          [split; [reflexivity | apply request_head] |]).
  destruct Hop.
Qed.

(** C4. The aggregate starts all nine reads, whatever their results. If
    one of them rejects, the aggregate rejects, with the reason of a
    rejected read, and no object is produced. If all nine fulfil, the
    aggregate fulfils with the object composed of the nine values. *)
Theorem getFullConfiguration_all_or_nothing (this : KeeneticControl) (net : Transport) :
  let o := getFullConfiguration this net in
  let reads := full_configuration_reads this net in
  length reads = 9%nat /\
  (forall op, In op Table.aggregate_reads ->
     In (Fetch (getBaseUrl this +:+ Table.path op) (request_init this no_options))
        (trace o) /\
     sent_method (request_init this no_options) = Table.method op) /\
  (forall r e, In r reads -> settled r = inl e ->
     exists e' r', In r' reads /\ settled r' = inl e' /\ settled o = inl e') /\
  (forall system interfaces wifi clients vpn usb firewall dns dhcp,
     map settled reads
     = [inr system; inr interfaces; inr wifi; inr clients; inr vpn; inr usb;
        inr firewall; inr dns; inr dhcp] ->
     settled o
     = inr (JObject
              [ ("system", system); ("interfaces", interfaces); ("wifi", wifi);
                ("clients", clients); ("vpn", vpn); ("usb", usb);
                ("firewall",
                  JObject [ ("enabled", JBool true);
                            ("defaultPolicy", JString "drop");
                            ("rules", firewall) ]);
                ("dns", dns); ("dhcp", dhcp) ])).
Proof.
  intros o reads. subst o reads.
  split; [reflexivity|]. split; [|split].
  - intros op Hop. rewrite getFullConfiguration_trace.
    destruct (aggregate_read_head this net op Hop) as (Hm & rest & Hsteps).
    split; [|now rewrite Hm].
    apply in_concat. exists (steps this net op). split.
    + apply in_map. exact Hop.
    + rewrite Hsteps. now left.
  - intros r e Hr He. rewrite getFullConfiguration_settled.
    assert (Hin : In (inl e) (map settled (full_configuration_reads this net))).
    { rewrite <- He. apply in_map. exact Hr. }
    destruct (all_settled_rejected _ e Hin) as (e' & Hall & Hin').
    apply in_map_iff in Hin'. destruct Hin' as (r' & Hr' & Hinr').
    exists e', r'. rewrite Hall. auto.
  - intros system interfaces wifi clients vpn usb firewall dns dhcp Hall.
    rewrite getFullConfiguration_settled.
    change [inr system; inr interfaces; inr wifi; inr clients; inr vpn; inr usb;
            inr firewall; inr dns; inr dhcp]
      with (map (@inr Error JSON)
              [system; interfaces; wifi; clients; vpn; usb; firewall; dns; dhcp]) in Hall.
    rewrite Hall, all_settled_fulfilled. reflexivity.
Qed.

(** A stub on which only the DNS read fails: the aggregate rejects. A
    stub on which every read succeeds: the aggregate is the composite. *)
Lemma getFullConfiguration_all_or_nothing_witness :
  (exists e' r',
     In r' (full_configuration_reads Example.client Example.dns_down) /\
     settled r' = inl e' /\
     settled (getFullConfiguration Example.client Example.dns_down) = inl e') /\
  settled (getFullConfiguration Example.client
             (Example.always (Example.ok_json Example.status_ok)))
  = inr (JObject
           [ ("system", Example.status_ok); ("interfaces", Example.status_ok);
             ("wifi", Example.status_ok); ("clients", Example.status_ok);
             ("vpn", Example.status_ok); ("usb", Example.status_ok);
             ("firewall",
               JObject [ ("enabled", JBool true);
                         ("defaultPolicy", JString "drop");
                         ("rules", Example.status_ok) ]);
             ("dns", Example.status_ok); ("dhcp", Example.status_ok) ]).
Proof.
  split.
  - destruct (getFullConfiguration_all_or_nothing Example.client Example.dns_down)
      as (_ & _ & Hfail & _).
    apply (Hfail (getDnsSettings Example.client Example.dns_down)
             (api_error Example.server_error)).
    + simpl. do 7 right. left. reflexivity.
    + reflexivity.
  - destruct (getFullConfiguration_all_or_nothing Example.client
                (Example.always (Example.ok_json Example.status_ok)))
      as (_ & _ & _ & Hok).
    apply Hok. reflexivity.
Defined.

(** ** The operation surface *)

Lemma length_append (s t : string) :
  String.length (s +:+ t) = (String.length s + String.length t)%nat.
Proof. induction s as [|c s IH]; simpl; [reflexivity | now rewrite IH]. Qed.

(** Appending a fixed suffix is injective. *)
Lemma append_cancel_r (t : string) :
  forall s1 s2, s1 +:+ t = s2 +:+ t -> s1 = s2.
Proof.
  induction s1 as [|c s1 IH]; intros [|d s2] H; simpl in H.
  - reflexivity.
  - apply (f_equal String.length) in H. rewrite !length_append in H. simpl in H. lia.
  - apply (f_equal String.length) in H. rewrite !length_append in H. simpl in H. lia.
  - injection H as -> H. f_equal. now apply IH.
Qed.

(** Prefixing with a fixed text is injective. *)
Lemma append_cancel_l (p s1 s2 : string) : p +:+ s1 = p +:+ s2 -> s1 = s2.
Proof. apply String.app_inj. Qed.

Lemma request_conforms (this : KeeneticControl) (net : Transport)
    (endpoint : string) (options : RequestInit) :
  conforms this (sent_method options) endpoint
    (trace (request this net endpoint options)).
Proof.
  split.
  - destruct (request_head this net endpoint options) as [rest Hr].
    exists (request_init this options), rest. split; [exact Hr | reflexivity].
  - eapply Forall_impl; [apply request_events|].
    intros ev [-> | ->] Hf; [reflexivity | discriminate].
Qed.

Lemma direct_fetch_conforms {A} (this : KeeneticControl) (net : Transport)
    (path m : string) (payload : option Body) (result : Response -> A) :
  conforms this m path (trace (direct_fetch this net path m payload result)).
Proof.
  split.
  - eexists _, []. split; reflexivity.
  - repeat constructor.
Qed.

(** Every operation conforms to its row of the table. *)
Lemma steps_conform (this : KeeneticControl) (net : Transport) (op : Operation) :
  conforms this (Table.method op) (Table.path op) (steps this net op).
Proof.
  destruct op;
    first [ apply direct_fetch_conforms
          | apply (request_conforms this net _ no_options)
          | apply (request_conforms this net _ (with_method _))
          | apply (request_conforms this net _ (with_json _ _)) ].
Qed.

Lemma first_request_table (this : KeeneticControl) (net : Transport) (op : Operation) :
  first_request this net op
  = Some (Table.method op, getBaseUrl this +:+ Table.path op).
Proof.
  destruct (steps_conform this net op) as [(init & rest & Hs & Hm) _].
  unfold first_request. rewrite Hs. simpl. now rewrite Hm.
Qed.

(** Two calls with the same first request have the same table path. *)
Lemma first_request_path (this : KeeneticControl) (net : Transport)
    (op1 op2 : Operation) :
  first_request this net op1 = first_request this net op2 ->
  Table.path op1 = Table.path op2.
Proof.
  rewrite !first_request_table. intros H. injection H as _ H.
  now apply append_cancel_l in H.
Qed.

Lemma pretty_Z_eq (a b : Z) : pretty a = pretty b -> a = b.
Proof. apply pretty_Z_inj. Qed.

(** C5. Every operation sends the method and the path of its row of the
    table, on its first invocation and on every later one. The path
    determines the key: two calls of the same keyed operation that send
    the same request line have the same interface name, SSID, MAC
    address, VPN type or rule id. And
    [configureWifiNetwork("MyWifi", {enabled:false})] sends PATCH on
    [/rci/wireless/ssid/MyWifi] with the body [{"enabled":false}]. *)
Theorem operations_match_table (this : KeeneticControl) (net : Transport) :
  (forall op,
     first_request this net op
     = Some (Table.method op, getBaseUrl this +:+ Table.path op) /\
     Forall (fun ev => is_fetch ev = true ->
                       request_line ev
                       = Some (Table.method op, getBaseUrl this +:+ Table.path op))
       (steps this net op)) /\
  ((forall a b, first_request this net (GetInterface a)
                = first_request this net (GetInterface b) -> a = b) /\
   (forall a b x y, first_request this net (ConfigureInterface a x)
                    = first_request this net (ConfigureInterface b y) -> a = b) /\
   (forall a b x y, first_request this net (ConfigureWifiNetwork a x)
                    = first_request this net (ConfigureWifiNetwork b y) -> a = b) /\
   (forall a b, first_request this net (DeleteWifiNetwork a)
                = first_request this net (DeleteWifiNetwork b) -> a = b) /\
   (forall a b, first_request this net (BlockClient a)
                = first_request this net (BlockClient b) -> a = b) /\
   (forall a b, first_request this net (UnblockClient a)
                = first_request this net (UnblockClient b) -> a = b) /\
   (forall a b x y, first_request this net (ConfigureVpn a x)
                    = first_request this net (ConfigureVpn b y) -> a = b) /\
   (forall a b x y, first_request this net (UpdateFirewallRule a x)
                    = first_request this net (UpdateFirewallRule b y) -> a = b) /\
   (forall a b, first_request this net (DeleteFirewallRule a)
                = first_request this net (DeleteFirewallRule b) -> a = b) /\
   (forall a b x y, first_request this net (ConfigureDhcpServer a x)
                    = first_request this net (ConfigureDhcpServer b y) -> a = b)) /\
  (first_request this net
     (ConfigureWifiNetwork "MyWifi" (JObject [("enabled", JBool false)]))
   = Some ("PATCH", getBaseUrl this +:+ "/rci/wireless/ssid/MyWifi") /\
   first_body this net
     (ConfigureWifiNetwork "MyWifi" (JObject [("enabled", JBool false)]))
   = Some (TextBody ("{" +:+ Js.dquote +:+ "enabled" +:+ Js.dquote +:+ ":false}"))).
Proof.
  split; [|split].
  - intros op. split; [apply first_request_table | apply steps_conform].
  - repeat split; intros;
      match goal with
      | H : first_request _ _ _ = first_request _ _ _ |- _ =>
          apply first_request_path in H; unfold Table.path in H;
          apply append_cancel_l in H;
          try apply append_cancel_r in H;
          try apply pretty_Z_eq in H;
          exact H
      end.
  - split.
    + apply first_request_table.
    + unfold first_body.
      destruct (request_head this net ("/rci/wireless/ssid/" +:+ "MyWifi")
                  (with_json "PATCH" (JObject [("enabled", JBool false)])))
        as [rest Hr].
      change (steps this net
                (ConfigureWifiNetwork "MyWifi" (JObject [("enabled", JBool false)])))
        with (trace (request this net ("/rci/wireless/ssid/" +:+ "MyWifi")
                       (with_json "PATCH" (JObject [("enabled", JBool false)])))).
      rewrite Hr. reflexivity.
Qed.

(** Two SSIDs, two request lines; and the request of the scenario. *)
Lemma operations_match_table_witness :
  first_request Example.client (Example.always Example.server_error)
    (ConfigureWifiNetwork "MyWifi" (JObject [("enabled", JBool false)]))
  = first_request Example.client (Example.always Example.server_error)
      (ConfigureWifiNetwork "MyWifi" JNull) /\
  "MyWifi" = "MyWifi" /\
  first_request Example.client (Example.always Example.server_error)
    (ConfigureWifiNetwork "MyWifi" (JObject [("enabled", JBool false)]))
  = Some ("PATCH", "https://192.168.1.1/rci/wireless/ssid/MyWifi").
Proof.
  destruct (operations_match_table Example.client (Example.always Example.server_error))
    as (_ & (_ & _ & Hinj & _) & (Hline & _)).
  split; [reflexivity|]. split.
  - apply (Hinj "MyWifi" "MyWifi" (JObject [("enabled", JBool false)]) JNull).
    reflexivity.
  - exact Hline.
Defined.

(** ** The singleton *)

Lemma reachable_well_formed (st : ModuleState) : reachable st -> well_formed st.
Proof.
  induction 1 as [|call st Hr IH]; intros obj Hobj.
  - discriminate.
  - destruct call as [options|options]; unfold after in *.
    + unfold getKeeneticControl in *.
      destruct (keeneticControlInstance st) as [old|] eqn:Hst.
      * simpl in *. apply IH. congruence.
      * destruct options as [o|]; simpl in *.
        -- injection Hobj as <-. simpl. lia.
        -- rewrite Hst in Hobj. discriminate.
    + simpl in *. injection Hobj as <-. simpl. lia.
Qed.

(** Once an object is held, [getKeeneticControl] returns it and leaves
    the state as it is, with or without options. *)
Lemma get_returns_held (st : ModuleState) (obj : Instance)
    (options : option KeeneticControlOptions) :
  keeneticControlInstance st = Some obj ->
  getKeeneticControl options st = (inr obj, st).
Proof. intros H. unfold getKeeneticControl. now rewrite H. Qed.

Lemma get_each_held (calls : list (option KeeneticControlOptions))
    (st : ModuleState) (obj : Instance) :
  keeneticControlInstance st = Some obj ->
  get_each calls st = (map (fun _ => inr obj) calls, st).
Proof.
  intros H. induction calls as [|options calls IH]; simpl; [reflexivity|].
  rewrite (get_returns_held st obj options H), IH. reflexivity.
Qed.

(** C6. In a state where nothing is held, [getKeeneticControl()] throws
    the configuration-missing error, and [getKeeneticControl(options)]
    creates an object from the options and holds it; every later call of
    [getKeeneticControl], whatever its argument, returns that same object.
    [initKeeneticControl(options)] holds and returns a new object built
    from its options, whatever was held before. *)
Theorem singleton_lifecycle :
  (forall st,
     keeneticControlInstance st = None ->
     getKeeneticControl None st = (inl not_initialized, st)) /\
  (forall st options,
     keeneticControlInstance st = None ->
     exists obj st',
       getKeeneticControl (Some options) st = (inr obj, st') /\
       fields obj = constructor options /\
       keeneticControlInstance st' = Some obj /\
       forall later, get_each later st' = (map (fun _ => inr obj) later, st')) /\
  (forall st options,
     reachable st ->
     exists obj st',
       initKeeneticControl options st = (obj, st') /\
       fields obj = constructor options /\
       keeneticControlInstance st' = Some obj /\
       (forall old, keeneticControlInstance st = Some old ->
                    identity obj <> identity old)).
Proof.
  split; [|split].
  - intros st H. unfold getKeeneticControl. now rewrite H.
  - intros st options H. unfold getKeeneticControl. rewrite H.
    eexists _, _. split; [reflexivity|]. split; [reflexivity|].
    split; [reflexivity|].
    intros later. now apply get_each_held.
  - intros st options Hr. unfold initKeeneticControl.
    eexists _, _. split; [reflexivity|]. split; [reflexivity|].
    split; [reflexivity|].
    intros old Hold. simpl.
    pose proof (reachable_well_formed st Hr old Hold). lia.
Qed.

(** The first call with options wins over a later call with other
    options, until [initKeeneticControl] replaces the object. *)
Lemma singleton_lifecycle_witness :
  (exists obj st',
     getKeeneticControl (Some (Example.options_with Example.admin None)) initial_state
     = (inr obj, st') /\
     fields obj = Example.client /\
     keeneticControlInstance st' = Some obj /\
     forall later, get_each later st' = (map (fun _ => inr obj) later, st')) /\
  (exists obj st',
     initKeeneticControl (Example.options_with Example.admin (Some 1))
       (after (Get (Some (Example.options_with Example.admin None))) initial_state)
     = (obj, st') /\
     fields obj = Example.client_one_retry /\
     keeneticControlInstance st' = Some obj /\
     forall old,
       keeneticControlInstance
         (after (Get (Some (Example.options_with Example.admin None))) initial_state)
       = Some old ->
       identity obj <> identity old).
Proof.
  destruct singleton_lifecycle as (_ & Hget & Hinit). split.
  - apply (Hget initial_state (Example.options_with Example.admin None)). reflexivity.
  - apply (Hinit (after (Get (Some (Example.options_with Example.admin None))) initial_state)
             (Example.options_with Example.admin (Some 1))).
    apply reachable_after. apply reachable_initial.
Defined.

(** ** The YAML transcription *)

Lemma append_assoc (s t u : string) : (s +:+ t) +:+ u = s +:+ (t +:+ u).
Proof.
  induction s as [|c s IH]; [reflexivity|].
  change (String c ((s +:+ t) +:+ u) = String c (s +:+ (t +:+ u))).
  now f_equal.
Qed.

Lemma spaces_plus (n m : nat) : Js.spaces (n + m) = Js.spaces n +:+ Js.spaces m.
Proof.
  induction n as [|n IH]; [reflexivity|].
  change (String " " (Js.spaces (n + m)) = String " " (Js.spaces n +:+ Js.spaces m)).
  now f_equal.
Qed.

Lemma spaces_prefix_array (indent : nat) (item : JSON) (items : list JSON) :
  exists rest, jsonToYaml (JArray (item :: items)) indent = Js.spaces indent +:+ rest.
Proof.
  cbn [jsonToYaml map]. destruct (map _ items) as [|x xs]; cbn [Js.join].
  - eexists. reflexivity.
  - eexists. rewrite append_assoc. reflexivity.
Qed.

Lemma spaces_prefix_object (indent : nat) (entry : string * JSON)
    (entries : list (string * JSON)) :
  exists rest, jsonToYaml (JObject (entry :: entries)) indent = Js.spaces indent +:+ rest.
Proof.
  cbn [jsonToYaml map].
  destruct (map _ entries) as [|x xs]; cbn [Js.join];
    destruct (nonempty_container (snd entry)).
  - eexists. reflexivity.
  - eexists. reflexivity.
  - eexists. rewrite append_assoc. reflexivity.
  - eexists. rewrite append_assoc. reflexivity.
Qed.

(** The block of a non-empty container starts with the indentation it is
    rendered at. *)
Lemma block_starts_indented (indent : nat) (value : JSON) :
  nonempty_container value = true ->
  exists rest, jsonToYaml value indent = Js.spaces indent +:+ rest.
Proof.
  destruct value as [| | | |[|item items]|[|entry entries]]; try discriminate; intros _.
  - apply spaces_prefix_array.
  - apply spaces_prefix_object.
Qed.

(** ** The YAML transcription: structure of the output *)

(** Induction on JSON values, with the hypothesis for every item of an
    array and every property value of an object. *)
Lemma JSON_induction (P : JSON -> Prop) :
  P JNull ->
  (forall b, P (JBool b)) ->
  (forall n, P (JNumber n)) ->
  (forall s, P (JString s)) ->
  (forall items, Forall P items -> P (JArray items)) ->
  (forall entries, Forall (fun kv => P (snd kv)) entries -> P (JObject entries)) ->
  forall v, P v.
Proof.
  intros Hnull Hbool Hnum Hstr Harr Hobj.
  fix IH 1. intros [|b|n|s|items|entries].
  - exact Hnull.
  - apply Hbool.
  - apply Hnum.
  - apply Hstr.
  - apply Harr. induction items as [|x xs IHxs]; constructor; [apply IH | exact IHxs].
  - apply Hobj. induction entries as [|[k x] xs IHxs]; constructor;
      [apply IH | exact IHxs].
Qed.

Lemma jsonToYaml_array (indent : nat) (item : JSON) (items : list JSON) :
  jsonToYaml (JArray (item :: items)) indent
  = Js.join Js.nl (map (yaml_item indent) (item :: items)).
Proof. reflexivity. Qed.

Lemma jsonToYaml_object (indent : nat) (entry : string * JSON)
    (entries : list (string * JSON)) :
  jsonToYaml (JObject (entry :: entries)) indent
  = Js.join Js.nl
      (map (fun kv => yaml_entry indent (fst kv) (snd kv)) (entry :: entries)).
Proof.
  cbn [jsonToYaml]. f_equal. apply map_ext. intros [key value].
  unfold yaml_entry. simpl fst. simpl snd.
  destruct (nonempty_container value); reflexivity.
Qed.

(** *** Lines *)

Lemma lines_not_nil (s : string) : lines s <> [].
Proof.
  induction s as [|c s IH]; simpl; [discriminate|].
  destruct (is_line_feed c); [discriminate|].
  destruct (lines s); [contradiction | discriminate].
Qed.

Lemma cons_first_app (c : ascii) (ls ms : list string) :
  ls <> [] -> cons_first c (ls ++ ms)%list = (cons_first c ls ++ ms)%list.
Proof. destruct ls; [contradiction | reflexivity]. Qed.

Lemma append_String (c : ascii) (s t : string) : String c s +:+ t = String c (s +:+ t).
Proof. reflexivity. Qed.

Lemma append_nil_l (t : string) : "" +:+ t = t.
Proof. reflexivity. Qed.

(** Splitting at a line feed. *)
Lemma lines_append_nl (a b : string) :
  lines (a +:+ Js.nl +:+ b) = (lines a ++ lines b)%list.
Proof.
  induction a as [|c a IH].
  - reflexivity.
  - rewrite append_String. simpl lines.
    destruct (is_line_feed c); [now rewrite IH|].
    rewrite IH. apply cons_first_app, lines_not_nil.
Qed.

(** A text without line feed is its own single line. *)
Lemma lines_single (s : string) : has_line_feed s = false -> lines s = [s].
Proof.
  induction s as [|c s IH]; [reflexivity|]. simpl.
  intros H. apply orb_false_iff in H as [Hc Hs].
  rewrite Hc, (IH Hs). reflexivity.
Qed.

(** A prefix without line feed goes to the first line. *)
Lemma lines_append_single (p s : string) :
  has_line_feed p = false ->
  lines (p +:+ s) = match lines s with
                    | l :: ls => (p +:+ l) :: ls
                    | [] => [p]
                    end.
Proof.
  induction p as [|c p IH]; intros H.
  - rewrite append_nil_l. destruct (lines s) eqn:Hs; [|reflexivity].
    now destruct (lines_not_nil s).
  - simpl in H. apply orb_false_iff in H as [Hc Hp].
    rewrite append_String. simpl lines. rewrite Hc, (IH Hp).
    destruct (lines s); reflexivity.
Qed.

Lemma lines_join (xs : list string) :
  xs <> [] -> lines (Js.join Js.nl xs) = concat (map lines xs).
Proof.
  induction xs as [|x xs IH]; [contradiction|]. intros _.
  destruct xs as [|y ys].
  - simpl. now rewrite app_nil_r.
  - change (Js.join Js.nl (x :: y :: ys))
      with (x +:+ Js.nl +:+ Js.join Js.nl (y :: ys)).
    rewrite lines_append_nl, IH by discriminate. reflexivity.
Qed.

Lemma has_line_feed_append (s t : string) :
  has_line_feed (s +:+ t) = has_line_feed s || has_line_feed t.
Proof.
  induction s as [|c s IH]; [reflexivity|].
  rewrite append_String. simpl. rewrite IH. now rewrite orb_assoc.
Qed.

Lemma has_line_feed_spaces (n : nat) : has_line_feed (Js.spaces n) = false.
Proof. induction n as [|n IH]; simpl; [reflexivity | exact IH]. Qed.

(** *** Texts of scalars *)

Lemma numeral_pretty_N_go (x : N) :
  forall s, numeral s = true -> numeral (pretty_N_go x s) = true.
Proof.
  induction (N.lt_wf_0 x) as [x _ IH]. intros s Hs.
  assert (x = 0 \/ 0 < x)%N as [->|Hx] by lia.
  - now rewrite pretty_N_go_0.
  - rewrite pretty_N_go_step by exact Hx.
    apply IH; [now apply N.div_lt|].
    simpl. rewrite Hs, andb_true_r.
    unfold pretty_N_char. repeat case_match; reflexivity.
Qed.

Lemma numeral_pretty (z : Z) : numeral (pretty z) = true.
Proof.
  assert (HN : forall x : N, numeral (pretty x) = true).
  { intros x. unfold pretty, pretty_N. case_decide; [reflexivity|].
    now apply numeral_pretty_N_go. }
  destruct z as [|p|p]; [reflexivity | apply (HN (Npos p)) |].
  change (pretty (Zneg p)) with ("-" +:+ pretty (Npos p)).
  rewrite append_String, append_nil_l. simpl. apply HN.
Qed.

Lemma numeral_plain (s : string) :
  numeral s = true ->
  Js.matches_class yaml_special s = false /\ has_line_feed s = false.
Proof.
  induction s as [|c s IH]; [now split|]. simpl. intros H.
  apply andb_true_iff in H as [Hc Hs]. destruct (IH Hs) as [Hm Hl].
  rewrite Hm, Hl, !orb_false_r.
  destruct c as [[] [] [] [] [] [] [] []]; try discriminate Hc; split; reflexivity.
Qed.

Lemma has_line_feed_replace_all (c : ascii) (by_ s : string) :
  is_line_feed c = false ->
  has_line_feed by_ = false ->
  has_line_feed (Js.replace_all c by_ s) = has_line_feed s.
Proof.
  intros Hc Hby. induction s as [|d s IH]; [reflexivity|].
  cbn [Js.replace_all has_line_feed].
  destruct (Ascii.eqb c d) eqn:Hd.
  - apply Ascii.eqb_eq in Hd. subst d.
    now rewrite has_line_feed_append, Hby, Hc, IH.
  - cbn [has_line_feed]. now rewrite IH.
Qed.

Lemma has_line_feed_trimStart (s : string) :
  has_line_feed s = false -> has_line_feed (Js.trimStart s) = false.
Proof.
  induction s as [|c s IH]; [reflexivity|]. intros H. simpl.
  destruct (Js.is_white_space c); [|exact H].
  simpl in H. apply orb_false_iff in H as [_ Hs]. now apply IH.
Qed.

(** *** Indentation *)

Lemma indented_weaken (n : nat) (line : string) :
  indented (n + 2) line -> indented n line.
Proof.
  intros [rest ->]. exists (Js.spaces 2 +:+ rest).
  now rewrite spaces_plus, append_assoc.
Qed.

Lemma indented_spaces_append (n : nat) (rest : string) :
  indented n (Js.spaces n +:+ rest).
Proof. now exists rest. Qed.

(** [trimStart] stops at the first character that is not white space;
    when no line feed comes before it, only a part of the first line is
    removed. *)
Lemma trimStart_within_first_line (p : string) (c : ascii) (q : string) :
  has_line_feed p = false ->
  Js.is_white_space c = false ->
  exists p', has_line_feed p' = false /\
             Js.trimStart (p +:+ String c q) = p' +:+ String c q.
Proof.
  intros Hp Hc. induction p as [|d p IH].
  - exists "". split; [reflexivity|]. rewrite append_nil_l. simpl. now rewrite Hc.
  - simpl in Hp. apply orb_false_iff in Hp as [Hd Hp].
    rewrite append_String. simpl. destruct (Js.is_white_space d).
    + now apply IH.
    + exists (String d p). split; [|reflexivity]. simpl. now rewrite Hd, Hp.
Qed.

Lemma tl_lines_prefix (p s : string) :
  has_line_feed p = false -> tl (lines (p +:+ s)) = tl (lines s).
Proof.
  intros Hp. rewrite (lines_append_single p s Hp).
  destruct (lines s) eqn:Hs; [|reflexivity]. now destruct (lines_not_nil s).
Qed.

(** The block of a non-empty container starts, on its first line, with a
    character that is not white space: the dash of the first item, or the
    colon after the first property name. *)
Lemma block_head (v : JSON) (n : nat) :
  single_line_texts v = true ->
  nonempty_container v = true ->
  exists p c q,
    jsonToYaml v n = p +:+ String c q /\
    has_line_feed p = false /\ Js.is_white_space c = false.
Proof.
  intros Hclean Hne.
  destruct v as [| | | |[|item items]|[|[key value] entries]]; try discriminate.
  - rewrite jsonToYaml_array. cbn [map]. unfold yaml_item at 1.
    destruct (map (yaml_item n) items) as [|x xs]; cbn [Js.join].
    + exists (Js.spaces n), "-"%char. eexists. split; [reflexivity|].
      split; [apply has_line_feed_spaces | reflexivity].
    + exists (Js.spaces n), "-"%char. eexists. split.
      * rewrite append_assoc. reflexivity.
      * split; [apply has_line_feed_spaces | reflexivity].
  - simpl in Hclean. apply andb_true_iff in Hclean as [Hk _].
    apply andb_true_iff in Hk as [Hk _]. apply negb_true_iff in Hk.
    rewrite jsonToYaml_object. cbn [map fst snd]. unfold yaml_entry at 1.
    assert (Hp : has_line_feed (Js.spaces n +:+ key) = false)
      by now rewrite has_line_feed_append, has_line_feed_spaces, Hk.
    destruct (map _ entries) as [|x xs]; cbn [Js.join];
      destruct (nonempty_container value);
      exists (Js.spaces n +:+ key), ":"%char; eexists;
      (split; [|split; [exact Hp | reflexivity]]);
      rewrite ?append_assoc; reflexivity.
Qed.


(** The lines of an item of an array block. *)
Lemma yaml_item_lines (n : nat) (item : JSON) :
  well_rendered item ->
  single_line_texts item = true ->
  Forall (indented n) (lines (yaml_item n item)).
Proof.
  intros Hitem Hclean. destruct (Hitem Hclean (n + 2)%nat) as [Hblock Hline].
  unfold yaml_item.
  rewrite (lines_append_single (Js.spaces n) _ (has_line_feed_spaces n)).
  destruct (lines ("- " +:+ Js.trimStart (jsonToYaml item (n + 2)))) as [|l ls] eqn:Hl.
  { now destruct (lines_not_nil _ Hl). }
  constructor; [apply indented_spaces_append|].
  assert (Hls : ls = tl (lines (Js.trimStart (jsonToYaml item (n + 2))))).
  { rewrite <- (tl_lines_prefix "- " _ eq_refl), Hl. reflexivity. }
  rewrite Hls. clear Hl Hls l ls.
  destruct (nonempty_container item) eqn:Hne.
  - destruct (block_head item (n + 2) Hclean Hne) as (p & c & q & Hr & Hp & Hc).
    destruct (trimStart_within_first_line p c q Hp Hc) as (p' & Hp' & Ht).
    specialize (Hblock eq_refl). rewrite Hr in Hblock |- *. rewrite Ht.
    rewrite (tl_lines_prefix p' _ Hp').
    rewrite <- (tl_lines_prefix p _ Hp).
    destruct (lines (p +:+ String c q)) as [|l0 ls0]; [constructor|].
    simpl. inversion Hblock as [|? ? _ Hrest]; subst.
    eapply Forall_impl; [exact Hrest|]. intros l. apply indented_weaken.
  - rewrite (lines_single _ (has_line_feed_trimStart _ (Hline eq_refl))).
    constructor.
Qed.

(** The lines of a property of an object block. *)
Lemma yaml_entry_lines (n : nat) (key : string) (value : JSON) :
  well_rendered value ->
  has_line_feed key = false ->
  single_line_texts value = true ->
  Forall (indented n) (lines (yaml_entry n key value)).
Proof.
  intros Hvalue Hkey Hclean. destruct (Hvalue Hclean (n + 2)%nat) as [Hblock Hline].
  unfold yaml_entry. destruct (nonempty_container value).
  - replace (Js.spaces n +:+ key +:+ (":" +:+ Js.nl) +:+ jsonToYaml value (n + 2))
      with ((Js.spaces n +:+ key +:+ ":") +:+ Js.nl +:+ jsonToYaml value (n + 2)).
    2:{ rewrite !append_assoc. reflexivity. }
    rewrite lines_append_nl. apply Forall_app. split.
    + rewrite lines_single.
      * constructor; [apply indented_spaces_append | constructor].
      * now rewrite !has_line_feed_append, has_line_feed_spaces, Hkey.
    + eapply Forall_impl; [exact (Hblock eq_refl)|]. intros l. apply indented_weaken.
  - rewrite lines_single.
    + constructor; [apply indented_spaces_append | constructor].
    + now rewrite !has_line_feed_append, has_line_feed_spaces, Hkey, (Hline eq_refl).
Qed.

Lemma jsonToYaml_well_rendered (v : JSON) : well_rendered v.
Proof.
  induction v as [|b|z|s|items IH|entries IH] using JSON_induction;
    intros Hclean n.
  - split; [discriminate | reflexivity].
  - split; [discriminate | now destruct b].
  - split; [discriminate|]. intros _. apply numeral_plain, numeral_pretty.
  - split; [discriminate|]. intros _. simpl in Hclean. apply negb_true_iff in Hclean.
    cbn [jsonToYaml]. destruct (Js.matches_class yaml_special s); [|exact Hclean].
    rewrite !has_line_feed_append, has_line_feed_replace_all, Hclean; reflexivity.
  - destruct items as [|item items]; [split; [discriminate | reflexivity]|].
    split; [|discriminate]. intros _.
    rewrite jsonToYaml_array, lines_join by discriminate.
    apply Forall_concat. rewrite map_map. apply Forall_map.
    simpl in Hclean. change (forallb single_line_texts (item :: items) = true) in Hclean.
    rewrite forallb_forall in Hclean. rewrite List.Forall_forall in IH |- *.
    intros x Hx. apply yaml_item_lines; [apply IH | apply Hclean]; exact Hx.
  - destruct entries as [|entry entries]; [split; [discriminate | reflexivity]|].
    split; [|discriminate]. intros _.
    rewrite jsonToYaml_object, lines_join by discriminate.
    apply Forall_concat. rewrite map_map. apply Forall_map.
    cbn [single_line_texts] in Hclean.
    rewrite forallb_forall in Hclean. rewrite List.Forall_forall in IH |- *.
    intros [key value] Hx. specialize (Hclean _ Hx). simpl in Hclean.
    apply andb_true_iff in Hclean as [Hk Hv]. apply negb_true_iff in Hk.
    apply yaml_entry_lines; [apply (IH _ Hx) | exact Hk | exact Hv].
Qed.

(** The lines of a non-empty array block: those of its items, in
    order. *)
Lemma array_block_lines (indent : nat) (items : list JSON) :
  items <> [] ->
  lines (jsonToYaml (JArray items) indent)
  = concat
      (map (fun item =>
              lines (Js.spaces indent +:+ "- "
                     +:+ Js.trimStart (jsonToYaml item (indent + 2))))
           items).
Proof.
  destruct items as [|item items]; [congruence|]. intros _.
  rewrite jsonToYaml_array, lines_join by discriminate.
  now rewrite map_map.
Qed.

(** The lines of a non-empty object block: those of its properties, in
    order; a non-empty container value starts on the line after the
    property name. *)
Lemma object_block_lines (indent : nat) (entries : list (string * JSON)) :
  entries <> [] ->
  lines (jsonToYaml (JObject entries) indent)
  = concat
      (map (fun kv =>
              if nonempty_container (snd kv)
              then (lines (Js.spaces indent +:+ fst kv +:+ ":")
                    ++ lines (jsonToYaml (snd kv) (indent + 2)))%list
              else lines (Js.spaces indent +:+ fst kv +:+ ": "
                          +:+ jsonToYaml (snd kv) (indent + 2)))
           entries).
Proof.
  destruct entries as [|entry entries]; [congruence|]. intros _.
  rewrite jsonToYaml_object, lines_join by discriminate.
  rewrite map_map. f_equal. apply map_ext. intros [key value].
  unfold yaml_entry. cbn [fst snd]. destruct (nonempty_container value).
  - rewrite <- lines_append_nl. f_equal. now rewrite !append_assoc.
  - reflexivity.
Qed.

(** C7. The object [{a:1, b:[1,2], c:{}}] renders as the five lines
    [a: 1], [b:], [  - 1], [  - 2], [c: {}]. At every indentation an
    empty array renders as [[]] and an empty object as [{}]. The lines
    of a non-empty array are the lines of its items in order, each item
    after the current indentation and a dash; the lines of a non-empty
    object are those of its properties in order, and a property whose
    value is a non-empty container is followed, from the next line on,
    by the block of the value, rendered two spaces deeper: that block
    starts with the deeper indentation, and so does each of its lines
    when no text in the value holds a line feed. *)
Theorem jsonToYaml_rendering :
  jsonToYaml
    (JObject [("a", JNumber 1); ("b", JArray [JNumber 1; JNumber 2]); ("c", JObject [])])
    0
  = "a: 1
b:
  - 1
  - 2
c: {}" /\
  lines (jsonToYaml
           (JObject [("a", JNumber 1); ("b", JArray [JNumber 1; JNumber 2]);
                     ("c", JObject [])])
           0)
  = ["a: 1"; "b:"; "  - 1"; "  - 2"; "c: {}"] /\
  (forall indent, jsonToYaml (JArray []) indent = "[]") /\
  (forall indent, jsonToYaml (JObject []) indent = "{}") /\
  (forall indent items,
     items <> [] ->
     lines (jsonToYaml (JArray items) indent)
     = concat
         (map (fun item =>
                 lines (Js.spaces indent +:+ "- "
                        +:+ Js.trimStart (jsonToYaml item (indent + 2))))
              items)) /\
  (forall indent entries,
     entries <> [] ->
     lines (jsonToYaml (JObject entries) indent)
     = concat
         (map (fun kv =>
                 if nonempty_container (snd kv)
                 then (lines (Js.spaces indent +:+ fst kv +:+ ":")
                       ++ lines (jsonToYaml (snd kv) (indent + 2)))%list
                 else lines (Js.spaces indent +:+ fst kv +:+ ": "
                             +:+ jsonToYaml (snd kv) (indent + 2)))
              entries)) /\
  (forall indent value,
     nonempty_container value = true ->
     exists rest,
       jsonToYaml value (indent + 2) = Js.spaces indent +:+ "  " +:+ rest) /\
  (forall indent value,
     single_line_texts value = true ->
     nonempty_container value = true ->
     Forall (fun line => exists rest, line = Js.spaces indent +:+ "  " +:+ rest)
       (lines (jsonToYaml value (indent + 2)))).
Proof.
  split; [reflexivity|]. split; [reflexivity|].
  split; [reflexivity|]. split; [reflexivity|].
  split; [exact array_block_lines|]. split; [exact object_block_lines|].
  split.
  - intros indent value H.
    destruct (block_starts_indented (indent + 2) value H) as [rest Hr].
    exists rest. rewrite Hr, spaces_plus, append_assoc. reflexivity.
  - intros indent value Hclean Hne.
    destruct (jsonToYaml_well_rendered value Hclean (indent + 2)%nat) as [Hblock _].
    eapply Forall_impl; [exact (Hblock Hne)|].
    intros line [rest ->]. exists rest.
    rewrite spaces_plus, append_assoc. reflexivity.
Qed.

(** The rendering rules at the nested array of the scenario, and at an
    array that holds an object: the first property follows the dash, the
    second is aligned under it. *)
Lemma jsonToYaml_rendering_witness :
  lines (jsonToYaml (JArray [JNumber 1; JNumber 2]) 2) = ["  - 1"; "  - 2"] /\
  lines (jsonToYaml (JArray [JObject [("a", JNumber 1); ("b", JNumber 2)]]) 0)
  = ["- a: 1"; "  b: 2"] /\
  Forall (fun line => exists rest, line = Js.spaces 0 +:+ "  " +:+ rest)
    (lines (jsonToYaml (JArray [JNumber 1; JNumber 2]) (0 + 2))).
Proof.
  destruct jsonToYaml_rendering as (_ & _ & _ & _ & Harr & _ & _ & Hlines).
  split; [|split].
  - rewrite (Harr 2%nat [JNumber 1; JNumber 2]); [reflexivity | discriminate].
  - rewrite (Harr 0%nat [JObject [("a", JNumber 1); ("b", JNumber 2)]]);
      [reflexivity | discriminate].
  - apply (Hlines 0%nat (JArray [JNumber 1; JNumber 2])); reflexivity.
Defined.

(** ** Base URL, headers and configuration defaults *)

(** C8, as stated, fails: with port 0 supplied the base URL has no port
    suffix. *)
Lemma port_zero_counterexample :
  port (credentials Example.client_port_zero) = Some 0 /\
  getBaseUrl Example.client_port_zero = "https://192.168.1.1".
Proof. split; reflexivity. Qed.

(** C8, amended. The base URL is [scheme://host] followed by a suffix.
    The scheme is [http] when [secure] is [false] and [https] in every
    other case, absent [secure] included. The suffix is [:port] when a
    port other than 0 is supplied, and empty when no port or port 0 is
    supplied. Every invocation of every operation is addressed to the
    base URL followed by the path of the operation. *)
Theorem getBaseUrl_shape (this : KeeneticControl) :
  let c := credentials this in
  (exists scheme suffix,
     getBaseUrl this = scheme +:+ "://" +:+ host c +:+ suffix /\
     (secure c = Some false -> scheme = "http") /\
     (secure c <> Some false -> scheme = "https") /\
     (forall p, port c = Some p -> p <> 0 -> suffix = ":" +:+ pretty p) /\
     (port c = None \/ port c = Some 0 -> suffix = "")) /\
  (forall net op,
     Forall (fun ev => forall url init,
                         ev = Fetch url init -> url = getBaseUrl this +:+ Table.path op)
       (steps this net op)).
Proof.
  intros c. split.
  - unfold getBaseUrl. fold c. eexists _, _. split; [reflexivity|].
    repeat split.
    + intros H. rewrite bool_decide_eq_false_2; [reflexivity | now intros Hn].
    + intros H. now rewrite bool_decide_eq_true_2.
    + intros p Hp Hnz. rewrite Hp. now rewrite bool_decide_eq_false_2.
    + intros [H|H]; rewrite H; [reflexivity|]. now rewrite bool_decide_eq_true_2.
  - intros net op. destruct (steps_conform this net op) as [_ Hall].
    eapply Forall_impl; [exact Hall|].
    intros ev Hev url init ->. specialize (Hev eq_refl). simpl in Hev.
    now injection Hev as _ <-.
Qed.

Lemma getBaseUrl_shape_witness :
  getBaseUrl Example.client = "https://192.168.1.1" /\
  getBaseUrl Example.client_insecure = "http://192.168.1.1:8080".
Proof.
  split.
  - destruct (getBaseUrl_shape Example.client)
      as [(scheme & suffix & Hurl & _ & Hs & _ & Hp) _].
    rewrite Hurl, Hs, Hp; [reflexivity | now left | discriminate].
  - destruct (getBaseUrl_shape Example.client_insecure)
      as [(scheme & suffix & Hurl & Hs & _ & Hp & _) _].
    rewrite Hurl, Hs, (Hp 8080); [reflexivity | reflexivity | lia | reflexivity].
Defined.



(** C10. A tunable supplied as 0 is replaced by its default: 10000 for
    [timeout], 3 for [retryCount], 1000 for [retryDelay]. A client
    constructed with [retryCount: 0] still retries three times: when
    every attempt fails, it invokes the transport four times. *)
Theorem constructor_zero_is_default (options : KeeneticControlOptions) :
  (Options.timeout options = Some 0 -> timeout (constructor options) = 10000) /\
  (Options.retryCount options = Some 0 -> retryCount (constructor options) = 3) /\
  (Options.retryDelay options = Some 0 -> retryDelay (constructor options) = 1000) /\
  (Options.retryCount options = Some 0 ->
   forall net endpoint init,
     (forall i, exists e, answer (constructor options) net endpoint init i = inl e) ->
     invocations (trace (request (constructor options) net endpoint init)) = 4%nat /\
     exists e, settled (request (constructor options) net endpoint init) = inl e).
Proof.
  split; [intros H; simpl; now rewrite H|].
  split; [intros H; simpl; now rewrite H|].
  split; [intros H; simpl; now rewrite H|].
  intros H net endpoint init Hfail. unfold request.
  assert (Hrc : retryCount (constructor options) = 3) by (simpl; now rewrite H).
  rewrite Hrc.
  destruct (retry_exhausted (constructor options) net endpoint init 3 3 0%nat
              eq_refl (fun i _ => Hfail i)) as [Hs Hn].
  split; [exact Hn|]. rewrite Hs. apply Hfail.
Qed.

Lemma constructor_zero_is_default_witness :
  timeout (constructor Example.options_all_zero) = 10000 /\
  retryCount (constructor Example.options_all_zero) = 3 /\
  retryDelay (constructor Example.options_all_zero) = 1000 /\
  invocations (trace (request (constructor Example.options_all_zero)
                        (Example.always Example.server_error)
                        "/rci/show/system" no_options)) = 4%nat.
Proof.
  destruct (constructor_zero_is_default Example.options_all_zero)
    as (Ht & Hc & Hd & Hr).
  split; [now apply Ht|]. split; [now apply Hc|]. split; [now apply Hd|].
  apply Hr; [reflexivity|].
  intros i. exists (api_error Example.server_error). reflexivity.
Defined.

(** * Further properties *)

(** ** The request pipeline: outcome, trace and bounds *)

Lemma invocations_retry_trace (url : string) (init : RequestInit) (d : Z) (k : nat) :
  invocations (retry_trace url init d k) = S k.
Proof.
  induction k as [|k IH]; [reflexivity|].
  change (invocations (retry_trace url init d (S k)))
    with (S (invocations (retry_trace url init d k))).
  now rewrite IH.
Qed.

Lemma waits_retry_trace (url : string) (init : RequestInit) (d : Z) (k : nat) :
  waits (retry_trace url init d k) = repeat d k.
Proof. induction k as [|k IH]; simpl; [reflexivity | now rewrite IH]. Qed.

Lemma last_retry_trace (url : string) (init : RequestInit) (d : Z) (k : nat) :
  List.last (retry_trace url init d k) (Wait 0) = Fetch url init.
Proof.
  induction k as [|k IH]; [reflexivity|].
  change (retry_trace url init d (S k))
    with (Fetch url init :: Wait d :: retry_trace url init d k).
  destruct (retry_trace url init d k) as [|ev rest] eqn:Ht.
  - destruct k; discriminate.
  - simpl in *. exact IH.
Qed.

(** One induction over the budget gives the whole story of a call: how
    many retries [k] it makes, its trace, where its outcome comes from,
    that every attempt before the last failed, and that a rejection
    means the budget is used up. *)
Lemma request_from_story (this : KeeneticControl) (net : Transport)
    (endpoint : string) (options : RequestInit) (budget : nat) :
  forall (retries : Z) (made : nat),
    Z.to_nat retries = budget ->
    exists k,
      (k <= budget)%nat /\
      trace (request_from this net endpoint options retries made)
      = retry_trace (getBaseUrl this +:+ endpoint) (request_init this options)
          (retryDelay this) k /\
      settled (request_from this net endpoint options retries made)
      = answer this net endpoint options (made + k) /\
      (forall i, (i < k)%nat ->
                 exists e, answer this net endpoint options (made + i) = inl e) /\
      (forall e, settled (request_from this net endpoint options retries made) = inl e ->
                 k = budget).
Proof.
  induction budget as [|budget IH]; intros retries made Hb;
    rewrite request_from_step;
    destruct (answer this net endpoint options made) as [e|v] eqn:Ha.
  - destruct (decide (0 < retries)); [lia|].
    exists 0%nat. rewrite Nat.add_0_r, Ha. repeat split; auto; intros; lia.
  - exists 0%nat. rewrite Nat.add_0_r, Ha.
    repeat split; auto; try lia; intros; try lia; discriminate.
  - destruct (decide (0 < retries)); [|lia].
    destruct (IH (retries - 1) (S made) ltac:(lia)) as (k & Hk & Ht & Hs & Hf & Hr).
    exists (S k). split; [lia|]. split; [|split; [|split]].
    + simpl. now rewrite Ht.
    + simpl settled. rewrite Hs. f_equal. lia.
    + intros i Hi. destruct i as [|i].
      * rewrite Nat.add_0_r. eauto.
      * replace (made + S i)%nat with (S made + i)%nat by lia. apply Hf. lia.
    + intros e' He'. simpl settled in He'. f_equal. eapply Hr. exact He'.
  - exists 0%nat. rewrite Nat.add_0_r, Ha.
    repeat split; auto; try lia; intros; try lia; discriminate.
Qed.

(** X1. The outcome of a pipeline call is the outcome of its last
    attempt, unchanged: every earlier attempt failed, and the call
    rejects only when its retry budget is used up. *)
Theorem request_outcome_is_last_attempt
    (this : KeeneticControl) (net : Transport) (endpoint : string)
    (options : RequestInit) :
  let o := request this net endpoint options in
  let m := invocations (trace o) in
  settled o = answer this net endpoint options (m - 1) /\
  (forall i, (S i < m)%nat -> exists e, answer this net endpoint options i = inl e) /\
  (forall e, settled o = inl e -> m = S (Z.to_nat (retryCount this))).
Proof.
  intros o m. subst o m. unfold request.
  destruct (request_from_story this net endpoint options
              (Z.to_nat (retryCount this)) (retryCount this) 0%nat eq_refl)
    as (k & Hk & Ht & Hs & Hf & Hr).
  rewrite Ht, invocations_retry_trace.
  split; [|split].
  - rewrite Hs. f_equal. lia.
  - intros i Hi. apply (Hf i). lia.
  - intros e He. f_equal. eapply Hr. exact He.
Qed.

(** Two answers 500 and then 404, with a single retry: the message of
    the rejection is that of the 404. *)
Lemma request_outcome_is_last_attempt_witness :
  settled (request Example.client_one_retry Example.gone_after_error
             "/rci/show/system" no_options)
  = inl {| name := "Error"; message := "API error: 404 Not Found" |} /\
  invocations (trace (request Example.client_one_retry Example.gone_after_error
                        "/rci/show/system" no_options)) = 2%nat.
Proof.
  destruct (request_outcome_is_last_attempt Example.client_one_retry
              Example.gone_after_error "/rci/show/system" no_options)
    as (Hs & _ & Hm).
  assert (Hn : invocations (trace (request Example.client_one_retry
                 Example.gone_after_error "/rci/show/system" no_options)) = 2%nat).
  { apply (Hm {| name := "Error"; message := "API error: 404 Not Found" |}).
    reflexivity. }
  split; [|exact Hn].
  rewrite Hs, Hn. reflexivity.
Defined.

(** X2. The trace of a pipeline call is fully determined by the number
    of invocations it makes: the same invocation each time, a wait of
    exactly [retryDelay] between two invocations (no back-off), and
    no wait after the last one. *)
Theorem request_trace_shape
    (this : KeeneticControl) (net : Transport) (endpoint : string)
    (options : RequestInit) :
  let o := request this net endpoint options in
  let m := invocations (trace o) in
  trace o = retry_trace (getBaseUrl this +:+ endpoint) (request_init this options)
              (retryDelay this) (m - 1) /\
  waits (trace o) = repeat (retryDelay this) (m - 1) /\
  List.last (trace o) (Wait 0)
  = Fetch (getBaseUrl this +:+ endpoint) (request_init this options).
Proof.
  intros o m. subst o m. unfold request.
  destruct (request_from_story this net endpoint options
              (Z.to_nat (retryCount this)) (retryCount this) 0%nat eq_refl)
    as (k & _ & Ht & _).
  rewrite Ht, invocations_retry_trace.
  replace (S k - 1)%nat with k by lia.
  split; [reflexivity|]. split; [apply waits_retry_trace | apply last_retry_trace].
Qed.

(** X3. A pipeline call invokes the transport at least once and at most
    [retryCount + 1] times, and exactly once when [retryCount] is not
    positive. *)
Theorem request_invocations_bounded
    (this : KeeneticControl) (net : Transport) (endpoint : string)
    (options : RequestInit) :
  let m := invocations (trace (request this net endpoint options)) in
  (1 <= m <= S (Z.to_nat (retryCount this)))%nat /\
  (retryCount this <= 0 -> m = 1%nat).
Proof.
  intros m. subst m. unfold request.
  destruct (request_from_story this net endpoint options
              (Z.to_nat (retryCount this)) (retryCount this) 0%nat eq_refl)
    as (k & Hk & Ht & _).
  rewrite Ht, invocations_retry_trace. split; [lia|]. intros H. lia.
Qed.

Lemma request_invocations_bounded_witness :
  (1 <= invocations (trace (request Example.client (Example.fails_then 9 Example.status_ok)
                              "/rci/show/system" no_options)) <= 4)%nat.
Proof.
  apply (request_invocations_bounded Example.client
           (Example.fails_then 9 Example.status_ok) "/rci/show/system" no_options).
Defined.

(** X4. A negative [retryCount] is kept by the constructor and disables
    retries: the call is a single invocation, and its outcome is that of
    this one attempt. *)
Theorem negative_retryCount_disables_retries
    (options : KeeneticControlOptions) (n : Z) (net : Transport)
    (endpoint : string) (init : RequestInit) :
  Options.retryCount options = Some n ->
  n < 0 ->
  let this := constructor options in
  retryCount this = n /\
  request this net endpoint init
  = {| trace := [Fetch (getBaseUrl this +:+ endpoint) (request_init this init)];
       settled := answer this net endpoint init 0 |}.
Proof.
  intros Hn Hneg this.
  assert (Hrc : retryCount this = n).
  { subst this. simpl. rewrite Hn. simpl.
    rewrite bool_decide_eq_false_2; [reflexivity | lia]. }
  split; [exact Hrc|].
  unfold request. rewrite Hrc. apply request_from_no_budget. lia.
Qed.

Lemma negative_retryCount_disables_retries_witness :
  retryCount (constructor (Example.options_with Example.admin (Some (-1)))) = -1 /\
  invocations (trace (request (constructor (Example.options_with Example.admin (Some (-1))))
                        (Example.always Example.server_error)
                        "/rci/show/system" no_options)) = 1%nat.
Proof.
  destruct (negative_retryCount_disables_retries
              (Example.options_with Example.admin (Some (-1))) (-1)
              (Example.always Example.server_error) "/rci/show/system" no_options
              eq_refl ltac:(lia)) as [Hrc Hreq].
  split; [exact Hrc|]. rewrite Hreq. reflexivity.
Defined.

(** ** The YAML transcription: indentation and lost distinctions *)

(** X5. Indentation invariant. When no string and no property name of
    the value holds a line feed, every line of the block of a non-empty
    array or object rendered at [indent] starts with [indent] spaces,
    however deep the value is nested; and a scalar or an empty container
    renders on a single line. *)
Theorem jsonToYaml_lines_indented (v : JSON) (indent : nat) :
  single_line_texts v = true ->
  (nonempty_container v = true ->
   Forall (indented indent) (lines (jsonToYaml v indent))) /\
  (nonempty_container v = false ->
   lines (jsonToYaml v indent) = [jsonToYaml v indent]).
Proof.
  intros Hclean. destruct (jsonToYaml_well_rendered v Hclean indent) as [Hb Hl].
  split; [exact Hb|]. intros H. apply lines_single, Hl, H.
Qed.

Lemma jsonToYaml_lines_indented_witness :
  Forall (indented 2)
    (lines (jsonToYaml
              (JObject [("rules", JArray [JObject [("id", JNumber 7);
                                                 ("ports", JArray [JNumber 80; JNumber 443])]])])
              2)).
Proof.
  apply (jsonToYaml_lines_indented
           (JObject [("rules", JArray [JObject [("id", JNumber 7);
                                              ("ports", JArray [JNumber 80; JNumber 443])]])])
           2); reflexivity.
Defined.

(** ** The YAML transcription: what the output does not tell apart *)

(** X6. A string that spells a number, a boolean or [null] is written
    without quotes, exactly like that number, boolean or [null]: the
    transcription does not tell them apart. *)
Theorem jsonToYaml_scalars_ambiguous (indent : nat) :
  (forall z, jsonToYaml (JString (pretty z)) indent = jsonToYaml (JNumber z) indent) /\
  (forall b : bool,
     jsonToYaml (JString (if b then "true" else "false")) indent
     = jsonToYaml (JBool b) indent) /\
  jsonToYaml (JString "null") indent = jsonToYaml JNull indent.
Proof.
  split; [|split].
  - intros z. cbn [jsonToYaml].
    destruct (numeral_plain _ (numeral_pretty z)) as [-> _]. reflexivity.
  - intros [|]; reflexivity.
  - reflexivity.
Qed.

Lemma white_space_not_special (c : ascii) :
  Js.is_white_space c = true -> bool_decide (c ∈ yaml_special) = false.
Proof.
  destruct c as [[] [] [] [] [] [] [] []]; try discriminate; intros _;
    vm_compute; reflexivity.
Qed.

Lemma matches_class_white_space (w s : string) :
  all_white_space w = true ->
  Js.matches_class yaml_special (w +:+ s) = Js.matches_class yaml_special s.
Proof.
  induction w as [|c w IH]; [reflexivity|]. intros H.
  cbn [all_white_space] in H. apply andb_true_iff in H as [Hc Hw].
  rewrite append_String. cbn [Js.matches_class].
  now rewrite (white_space_not_special c Hc), (IH Hw).
Qed.

Lemma trimStart_white_space (w s : string) :
  all_white_space w = true -> Js.trimStart (w +:+ s) = Js.trimStart s.
Proof.
  induction w as [|c w IH]; [reflexivity|]. intros H.
  cbn [all_white_space] in H. apply andb_true_iff in H as [Hc Hw].
  rewrite append_String. cbn [Js.trimStart]. now rewrite Hc, (IH Hw).
Qed.

(** X7. White space at the start of a string is lost when the string is
    an item of an array and holds none of the characters that force
    quoting, but is kept when the same string is the value of a
    property. *)
Theorem jsonToYaml_array_item_loses_leading_space
    (indent : nat) (w s key : string) (rest : list JSON) :
  all_white_space w = true ->
  Js.matches_class yaml_special s = false ->
  jsonToYaml (JArray (JString (w +:+ s) :: rest)) indent
  = jsonToYaml (JArray (JString s :: rest)) indent /\
  jsonToYaml (JObject [(key, JString (w +:+ s))]) indent
  = Js.spaces indent +:+ key +:+ ": " +:+ w +:+ s.
Proof.
  intros Hw Hs. split.
  - rewrite !jsonToYaml_array. cbn [map]. f_equal. f_equal.
    unfold yaml_item. cbn [jsonToYaml].
    rewrite (matches_class_white_space w s Hw), Hs.
    now rewrite (trimStart_white_space w s Hw).
  - cbn [jsonToYaml map Js.join fst snd nonempty_container].
    now rewrite (matches_class_white_space w s Hw), Hs.
Qed.

Lemma jsonToYaml_array_item_loses_leading_space_witness :
  jsonToYaml (JArray [JString ("  " +:+ "guest")]) 0
  = jsonToYaml (JArray [JString "guest"]) 0 /\
  jsonToYaml (JObject [("ssid", JString ("  " +:+ "guest"))]) 0
  = Js.spaces 0 +:+ "ssid" +:+ ": " +:+ "  " +:+ "guest".
Proof.
  apply (jsonToYaml_array_item_loses_leading_space 0 "  " "guest" "ssid" []);
    reflexivity.
Defined.

(** ** Constant servers, pipeline against direct transfers *)

Lemma request_range (this : KeeneticControl) (net : Transport)
    (endpoint : string) (options : RequestInit) :
  (1 <= invocations (trace (request this net endpoint options))
   <= S (Z.to_nat (retryCount this)))%nat.
Proof. apply invocations_bound. lia. Qed.

(** X8. Against a server that gives the same response to every
    invocation, a pipeline call settles to what one attempt on that
    response gives: it fulfils after a single invocation when the status
    is in the 2xx range and the body is JSON text, and otherwise rejects
    after [retryCount + 1] invocations. A direct transfer makes a single
    invocation whatever the response, and fulfils exactly when the status
    is in the 2xx range, JSON body or not. *)
Theorem constant_server_outcomes
    (this : KeeneticControl) (response : Response) (endpoint : string)
    (options : RequestInit) (file : string) :
  let net : Transport := fun _ _ _ => inr response in
  let o := request this net endpoint options in
  settled o = attempt (inr response) /\
  (forall v, attempt (inr response) = inr v -> invocations (trace o) = 1%nat) /\
  (forall e, attempt (inr response) = inl e ->
             invocations (trace o) = S (Z.to_nat (retryCount this))) /\
  invocations (trace (restoreConfiguration this net file)) = 1%nat /\
  invocations (trace (updateFirmware this net file)) = 1%nat /\
  invocations (trace (backupConfiguration this net)) = 1%nat /\
  (ok response = true ->
   settled (restoreConfiguration this net file) = inr tt /\
   settled (updateFirmware this net file) = inr tt /\
   settled (backupConfiguration this net) = inr (blob response)) /\
  (ok response = false ->
   settled (restoreConfiguration this net file) = inl (api_error response) /\
   settled (updateFirmware this net file) = inl (api_error response) /\
   settled (backupConfiguration this net) = inl (api_error response)).
Proof.
  intros net o. subst o. unfold request.
  destruct (request_from_story this net endpoint options
              (Z.to_nat (retryCount this)) (retryCount this) 0%nat eq_refl)
    as (k & Hk & Ht & Hs & Hf & Hr).
  assert (Hconst : forall i, answer this net endpoint options i = attempt (inr response))
    by reflexivity.
  rewrite Ht, invocations_retry_trace, Hs, Hconst.
  split; [reflexivity|]. split; [|split].
  - intros v Hv. destruct k as [|k]; [reflexivity|].
    destruct (Hf 0%nat ltac:(lia)) as [e He]. rewrite Hconst, Hv in He. discriminate.
  - intros e He. f_equal. apply (Hr e). now rewrite Hs, Hconst.
  - split; [reflexivity|]. split; [reflexivity|]. split; [reflexivity|].
    unfold restoreConfiguration, updateFirmware, backupConfiguration, direct_fetch.
    subst net. simpl settled.
    split; intros ->; repeat split; reflexivity.
Qed.

(** A restore answered [200] with an HTML page succeeds at once, while a
    reboot sent through the pipeline to the same server rejects after
    four invocations. *)
Lemma constant_server_outcomes_witness :
  settled (restoreConfiguration Example.client (Example.always Example.ok_not_json)
             "backup")
  = inr tt /\
  invocations (trace (request Example.client (Example.always Example.ok_not_json)
                        "/rci/system/reboot" (with_method "POST"))) = 4%nat.
Proof.
  destruct (constant_server_outcomes Example.client Example.ok_not_json
              "/rci/system/reboot" (with_method "POST") "backup")
    as (_ & _ & Hrej & _ & _ & _ & Hok & _).
  split.
  - apply Hok. reflexivity.
  - apply (Hrej {| name := "SyntaxError"; message := "Unexpected token <" |}).
    reflexivity.
Defined.

(** ** The aggregate export: cost and layout *)

Lemma invocations_app (a b : list Event) :
  invocations (a ++ b)%list = (invocations a + invocations b)%nat.
Proof. unfold invocations. now rewrite filter_app, length_app. Qed.

(** X9. The aggregate export invokes the transport at least nine times
    and at most nine times [retryCount + 1]. *)
Theorem getFullConfiguration_invocations_bounded
    (this : KeeneticControl) (net : Transport) :
  (9 <= invocations (trace (getFullConfiguration this net))
   <= 9 * S (Z.to_nat (retryCount this)))%nat.
Proof.
  rewrite getFullConfiguration_trace.
  cbn [Table.aggregate_reads map concat steps].
  unfold getSystemInfo, getInterfaces, getWifiNetworks, getConnectedClients,
    getVpnConnections, getUsbDevices, getFirewallRules, getDnsSettings,
    getDhcpServers.
  rewrite !invocations_app. change (invocations []) with 0%nat.
  pose proof (request_range this net "/rci/show/system" no_options).
  pose proof (request_range this net "/rci/show/interface" no_options).
  pose proof (request_range this net "/rci/show/interface/wireless" no_options).
  pose proof (request_range this net "/rci/show/ip/hotspot" no_options).
  pose proof (request_range this net "/rci/show/vpn" no_options).
  pose proof (request_range this net "/rci/show/usb" no_options).
  pose proof (request_range this net "/rci/show/ip/firewall" no_options).
  pose proof (request_range this net "/rci/show/ip/dns" no_options).
  pose proof (request_range this net "/rci/show/ip/dhcp/server" no_options).
  lia.
Qed.

Lemma exportAsYaml_settled (this : KeeneticControl) (net : Transport) :
  settled (exportAsYaml this net)
  = match settled (getFullConfiguration this net) with
    | inl e => inl e
    | inr value => inr (jsonToYaml value 0)
    end.
Proof. reflexivity. Qed.

Lemma firewall_block (rules : JSON) :
  yaml_entry 0 "firewall"
    (JObject [ ("enabled", JBool true); ("defaultPolicy", JString "drop");
               ("rules", rules) ])
  = "firewall:" +:+ Js.nl
    +:+ Js.join Js.nl
          [ "  enabled: true"; "  defaultPolicy: drop"; yaml_entry 2 "rules" rules ].
Proof.
  unfold yaml_entry at 1. cbn [nonempty_container].
  rewrite jsonToYaml_object. reflexivity.
Qed.

Lemma yaml_entry_property_lines (indent : nat) (key : string) (value : JSON) :
  has_line_feed key = false ->
  lines (yaml_entry indent key value) = property_lines indent key value.
Proof.
  intros Hkey. unfold yaml_entry, property_lines.
  destruct (nonempty_container value); [|reflexivity].
  replace (Js.spaces indent +:+ key +:+ (":" +:+ Js.nl) +:+ jsonToYaml value (indent + 2))
    with ((Js.spaces indent +:+ key +:+ ":") +:+ Js.nl +:+ jsonToYaml value (indent + 2))
    by (rewrite !append_assoc; reflexivity).
  rewrite lines_append_nl, lines_single; [reflexivity|].
  now rewrite !has_line_feed_append, has_line_feed_spaces, Hkey.
Qed.

(** X10. When the nine reads fulfil, the lines of the YAML export are
    those of the nine top-level properties in the order system,
    interfaces, wifi, clients, vpn, usb, firewall, dns, dhcp. The
    firewall block always reads [firewall:], [  enabled: true],
    [  defaultPolicy: drop], whatever the router answered, followed by
    the rules that were read. When the aggregate rejects, the export
    rejects with the same error; in both cases it makes the invocations
    of the aggregate and no other. *)
Theorem exportAsYaml_layout (this : KeeneticControl) (net : Transport) :
  trace (exportAsYaml this net) = trace (getFullConfiguration this net) /\
  (forall e, settled (getFullConfiguration this net) = inl e ->
             settled (exportAsYaml this net) = inl e) /\
  (forall system interfaces wifi clients vpn usb firewall dns dhcp,
     map settled (full_configuration_reads this net)
     = [inr system; inr interfaces; inr wifi; inr clients; inr vpn; inr usb;
        inr firewall; inr dns; inr dhcp] ->
     exists text,
       settled (exportAsYaml this net) = inr text /\
       lines text
       = (property_lines 0 "system" system
          ++ property_lines 0 "interfaces" interfaces
          ++ property_lines 0 "wifi" wifi
          ++ property_lines 0 "clients" clients
          ++ property_lines 0 "vpn" vpn
          ++ property_lines 0 "usb" usb
          ++ ["firewall:"; "  enabled: true"; "  defaultPolicy: drop"]
          ++ property_lines 2 "rules" firewall
          ++ property_lines 0 "dns" dns
          ++ property_lines 0 "dhcp" dhcp)%list).
Proof.
  split; [reflexivity|]. split.
  - intros e He. now rewrite exportAsYaml_settled, He.
  - intros system interfaces wifi clients vpn usb firewall dns dhcp Hall.
    rewrite exportAsYaml_settled, getFullConfiguration_settled.
    change [inr system; inr interfaces; inr wifi; inr clients; inr vpn; inr usb;
            inr firewall; inr dns; inr dhcp]
      with (map (@inr Error JSON)
              [system; interfaces; wifi; clients; vpn; usb; firewall; dns; dhcp]) in Hall.
    rewrite Hall, all_settled_fulfilled.
    eexists. split; [reflexivity|].
    unfold router_configuration. cbn [nth].
    rewrite jsonToYaml_object, lines_join by discriminate.
    cbn [map fst snd concat].
    rewrite firewall_block, lines_append_nl, lines_join by discriminate.
    cbn [map concat].
    rewrite !yaml_entry_property_lines by reflexivity.
    rewrite !app_nil_r, <- !app_assoc. reflexivity.
Qed.

(** The export when the router answers every read with an empty list,
    and when the firewall read gives two rule ids. *)
Lemma exportAsYaml_layout_witness :
  settled (exportAsYaml Example.client
             (Example.always (Example.ok_json (JArray []))))
  = inr "system: []
interfaces: []
wifi: []
clients: []
vpn: []
usb: []
firewall:
  enabled: true
  defaultPolicy: drop
  rules: []
dns: []
dhcp: []" /\
  exists text,
    settled (exportAsYaml Example.client
               (Example.always (Example.ok_json (JArray [JNumber 7; JNumber 9]))))
    = inr text /\
    lines text
    = [ "system:"; "  - 7"; "  - 9"; "interfaces:"; "  - 7"; "  - 9";
        "wifi:"; "  - 7"; "  - 9"; "clients:"; "  - 7"; "  - 9";
        "vpn:"; "  - 7"; "  - 9"; "usb:"; "  - 7"; "  - 9";
        "firewall:"; "  enabled: true"; "  defaultPolicy: drop";
        "  rules:"; "    - 7"; "    - 9";
        "dns:"; "  - 7"; "  - 9"; "dhcp:"; "  - 7"; "  - 9" ].
Proof.
  split.
  - destruct (exportAsYaml_layout Example.client
                (Example.always (Example.ok_json (JArray [])))) as (_ & _ & Hok).
    destruct (Hok (JArray []) (JArray []) (JArray []) (JArray []) (JArray [])
                (JArray []) (JArray []) (JArray []) (JArray []) eq_refl)
      as (text & Ht & _).
    rewrite Ht. vm_compute in Ht. injection Ht as <-. reflexivity.
  - destruct (exportAsYaml_layout Example.client
                (Example.always (Example.ok_json (JArray [JNumber 7; JNumber 9]))))
      as (_ & _ & Hok).
    destruct (Hok (JArray [JNumber 7; JNumber 9]) (JArray [JNumber 7; JNumber 9])
                (JArray [JNumber 7; JNumber 9]) (JArray [JNumber 7; JNumber 9])
                (JArray [JNumber 7; JNumber 9]) (JArray [JNumber 7; JNumber 9])
                (JArray [JNumber 7; JNumber 9]) (JArray [JNumber 7; JNumber 9])
                (JArray [JNumber 7; JNumber 9]) eq_refl)
      as (text & Ht & Hl).
    exists text. split; [exact Ht|]. rewrite Hl. reflexivity.
Defined.

(** ** The singleton over sequences of calls *)

Lemma after_keeps_held (call : Call) (st : ModuleState) :
  keeneticControlInstance st <> None ->
  keeneticControlInstance (after call st) <> None.
Proof.
  intros H. destruct call as [options|options]; [|discriminate].
  unfold after, getKeeneticControl.
  destruct (keeneticControlInstance st) as [obj|] eqn:Hst; [|contradiction].
  simpl. now rewrite Hst.
Qed.

(** X11. No call clears the singleton: once an object is held, one is
    held after every further sequence of calls, and [getKeeneticControl]
    does not throw, with or without options. *)
Theorem singleton_never_cleared
    (st : ModuleState) (calls : list Call) (options : option KeeneticControlOptions) :
  keeneticControlInstance st <> None ->
  keeneticControlInstance (run calls st) <> None /\
  exists obj, fst (getKeeneticControl options (run calls st)) = inr obj.
Proof.
  intros H.
  assert (Hrun : keeneticControlInstance (run calls st) <> None).
  { revert st H. induction calls as [|call calls IH]; intros st H; [exact H|].
    simpl. apply IH, after_keeps_held, H. }
  split; [exact Hrun|].
  unfold getKeeneticControl.
  destruct (keeneticControlInstance (run calls st)) as [obj|]; [|contradiction].
  now exists obj.
Qed.

Lemma singleton_never_cleared_witness :
  exists obj,
    fst (getKeeneticControl None
           (run [Get None; Get (Some (Example.options_with Example.admin (Some 1)))]
              (after (Init (Example.options_with Example.admin None)) initial_state)))
    = inr obj.
Proof.
  apply (singleton_never_cleared
           (after (Init (Example.options_with Example.admin None)) initial_state)
           [Get None; Get (Some (Example.options_with Example.admin (Some 1)))] None).
  discriminate.
Defined.

(** X12. Which client is held after a sequence of calls: the one built
    from the options of the last [initKeeneticControl]; without any, the
    one held before the sequence; without that either, the one built
    from the options of the first [getKeeneticControl] that supplied
    some; and none otherwise. *)
Theorem singleton_after_calls (calls : list Call) (st : ModuleState) :
  fields <$> keeneticControlInstance (run calls st)
  = match last_init calls with
    | Some o => Some (constructor o)
    | None =>
        match keeneticControlInstance st with
        | Some obj => Some (fields obj)
        | None => constructor <$> first_get calls
        end
    end.
Proof.
  revert st. induction calls as [|call calls IH]; intros st.
  - simpl. now destruct (keeneticControlInstance st).
  - cbn [run last_init]. rewrite IH.
    destruct (last_init calls) as [o|]; [reflexivity|].
    destruct call as [[o|]|o]; cbn [after first_get]; unfold getKeeneticControl.
    + destruct (keeneticControlInstance st) as [obj|] eqn:Hst; simpl.
      * now rewrite Hst.
      * reflexivity.
    + destruct (keeneticControlInstance st) as [obj|] eqn:Hst; simpl; now rewrite Hst.
    + reflexivity.
Qed.

(** ** The credential header *)

(** X13. The user name and the password are joined by a colon without
    any escaping, so a colon can move from one to the other without
    changing the header: two different pairs of credentials then send
    the same [Authorization] value. *)
Theorem getAuthHeader_colon_moves
    (this1 this2 : KeeneticControl) (u a b : string) :
  username (credentials this1) = u +:+ ":" +:+ a ->
  password (credentials this1) = b ->
  username (credentials this2) = u ->
  password (credentials this2) = a +:+ ":" +:+ b ->
  getAuthHeader this1 = getAuthHeader this2.
Proof.
  intros Hu1 Hp1 Hu2 Hp2. unfold getAuthHeader.
  rewrite Hu1, Hp1, Hu2, Hp2. now rewrite !append_assoc.
Qed.

Lemma getAuthHeader_colon_moves_witness :
  getAuthHeader (constructor (Example.options_with
                   {| host := "192.168.1.1"; username := "ops:admin"; password := "secret";
                      port := None; secure := None |} None))
  = getAuthHeader (constructor (Example.options_with
                     {| host := "192.168.1.1"; username := "ops";
                        password := "admin:secret"; port := None; secure := None |} None)).
Proof.
  apply (getAuthHeader_colon_moves _ _ "ops" "admin" "secret"); reflexivity.
Defined.

(** ** The simulated SSH client *)

Lemma perform_connected (actions : list SSH2Client.Action) :
  forall this : SSH2Client.t,
    SSH2Client.isConnected (fst (SSH2Client.perform actions this))
    = match last actions with
      | Some SSH2Client.Connect => true
      | Some SSH2Client.Disconnect => false
      | None => SSH2Client.connected this
      end.
Proof.
  induction actions as [|a rest IH]; intros this; [reflexivity|].
  assert (Hrest : forall next,
             SSH2Client.connected next = SSH2Client.is_connect a ->
             SSH2Client.isConnected (fst (SSH2Client.perform rest next))
             = match last (a :: rest) with
               | Some SSH2Client.Connect => true
               | Some SSH2Client.Disconnect => false
               | None => SSH2Client.connected this
               end).
  { intros next Hnext. rewrite IH. destruct rest as [|b rest'].
    - simpl. rewrite Hnext. now destruct a.
    - change (last (a :: b :: rest')) with (last (b :: rest')).
      destruct (last (b :: rest')) eqn:Hl; [reflexivity|].
      apply last_None in Hl. discriminate. }
  destruct a; cbn [SSH2Client.perform].
  - destruct (SSH2Client.perform rest (SSH2Client.client (SSH2Client.connect this)))
      as [final later] eqn:Hp.
    change final with (fst (final, later)). rewrite <- Hp. now apply Hrest.
  - destruct (SSH2Client.disconnect this) as [next now] eqn:Hd.
    destruct (SSH2Client.perform rest next) as [final later] eqn:Hp.
    change final with (fst (final, later)). rewrite <- Hp. apply Hrest.
    unfold SSH2Client.disconnect in Hd.
    destruct (SSH2Client.connected this) eqn:Hc; injection Hd as <- _;
      [reflexivity | exact Hc].
Qed.

Lemma perform_closed (actions : list SSH2Client.Action) :
  forall this : SSH2Client.t,
    (length (filter SSH2Client.is_closed (snd (SSH2Client.perform actions this)))
     + (if SSH2Client.connected (fst (SSH2Client.perform actions this)) then 1 else 0)
     <= length (filter SSH2Client.is_connect actions)
        + (if SSH2Client.connected this then 1 else 0))%nat.
Proof.
  induction actions as [|a rest IH]; intros this; [simpl; lia|].
  destruct a; cbn [SSH2Client.perform].
  - specialize (IH (SSH2Client.client (SSH2Client.connect this))).
    destruct (SSH2Client.perform rest (SSH2Client.client (SSH2Client.connect this)))
      as [final later].
    cbn [fst snd] in *. rewrite filter_app, length_app.
    assert (Hnone : filter SSH2Client.is_closed
                      (SSH2Client.emitted (SSH2Client.connect this)) = []).
    { unfold SSH2Client.connect, SSH2Client.data. simpl.
      destruct (SSH2Client.onData this); reflexivity. }
    rewrite Hnone. rewrite filter_cons_True by reflexivity.
    simpl in *. destruct (SSH2Client.connected this); lia.
  - unfold SSH2Client.disconnect.
    destruct (SSH2Client.connected this) eqn:Hc.
    + specialize (IH (SSH2Client.set_connected this false)).
      destruct (SSH2Client.perform rest (SSH2Client.set_connected this false))
        as [final later].
      cbn [fst snd] in *. rewrite filter_app, length_app.
      rewrite filter_cons_False by (simpl; auto).
      destruct (SSH2Client.onClose this); simpl in *; lia.
    + specialize (IH this).
      destruct (SSH2Client.perform rest this) as [final later].
      cbn [fst snd] in *. rewrite Hc in IH.
      rewrite filter_cons_False by (simpl; auto). simpl. lia.
Qed.

(** X14. The session flag follows the last call: after a sequence of
    [connect] and [disconnect] calls the client is connected exactly when
    the last one is a [connect]. The close handler is called at most once
    per connection, and a [disconnect] on a client that is not connected
    changes nothing and notifies nobody. *)
Theorem ssh_session_follows_last_call
    (actions : list SSH2Client.Action) (this : SSH2Client.t) :
  SSH2Client.isConnected (fst (SSH2Client.perform actions this))
  = match last actions with
    | Some SSH2Client.Connect => true
    | Some SSH2Client.Disconnect => false
    | None => SSH2Client.connected this
    end /\
  (length (filter SSH2Client.is_closed (snd (SSH2Client.perform actions this)))
   <= length (filter SSH2Client.is_connect actions)
      + (if SSH2Client.connected this then 1 else 0))%nat /\
  SSH2Client.disconnect (fst (SSH2Client.disconnect this))
  = (fst (SSH2Client.disconnect this), []).
Proof.
  split; [apply perform_connected|]. split.
  - pose proof (perform_closed actions this). lia.
  - unfold SSH2Client.disconnect.
    destruct (SSH2Client.connected this) eqn:Hc; simpl; [reflexivity|].
    now rewrite Hc.
Qed.

(** X15. A command is rejected for one reason only: the client is not
    connected. Then the error is [Not connected], nothing is echoed and
    nothing is sent to the router; this is the case of a new client and
    of a client after [disconnect]. A connected client fulfils every
    command, whatever the transport does. *)
Theorem ssh_execute_rejects_only_unconnected
    (this : SSH2Client.t) (net : Transport) (command : string) :
  let s := SSH2Client.execute this net command in
  (forall e, SSH2Client.result s = inl e <->
             SSH2Client.connected this = false /\ e = SSH2Client.not_connected) /\
  (SSH2Client.connected this = false ->
   SSH2Client.emitted s = [] /\ SSH2Client.invoked s = [] /\ SSH2Client.client s = this) /\
  (forall options st,
     SSH2Client.connected (SSH2Client.constructor options st) = false) /\
  SSH2Client.connected (fst (SSH2Client.disconnect this)) = false.
Proof.
  intros s. subst s. unfold SSH2Client.execute.
  destruct (SSH2Client.connected this) eqn:Hc.
  - destruct (SSH2Client.output_for this net command) as [steps output].
    split; [|split; [|split]].
    + intros e. split; [discriminate | intros [H _]; discriminate].
    + discriminate.
    + reflexivity.
    + unfold SSH2Client.disconnect. now rewrite Hc.
  - split; [|split; [|split]].
    + intros e. simpl. split.
      * intros H. injection H as <-. now split.
      * intros [_ ->]. reflexivity.
    + intros _. repeat split.
    + reflexivity.
    + unfold SSH2Client.disconnect. now rewrite Hc.
Qed.

Lemma ssh_execute_rejects_only_unconnected_witness :
  SSH2Client.emitted
    (SSH2Client.execute (SSH2Client.constructor ExampleSsh.ssh_options initial_state)
       (Example.always Example.server_error) "show system") = [] /\
  SSH2Client.result
    (SSH2Client.execute (SSH2Client.constructor ExampleSsh.ssh_options initial_state)
       (Example.always Example.server_error) "show system")
  = inl {| name := "Error"; message := "Not connected" |}.
Proof.
  destruct (ssh_execute_rejects_only_unconnected
              (SSH2Client.constructor ExampleSsh.ssh_options initial_state)
              (Example.always Example.server_error) "show system")
    as (Hiff & Hquiet & _ & _).
  split.
  - apply Hquiet. reflexivity.
  - apply Hiff. split; reflexivity.
Defined.




(** ** Canned answers of the simulated client *)

Lemma is_white_space_lower (c : ascii) :
  Js.is_white_space (JsText.lower c) = Js.is_white_space c.
Proof. destruct c as [[] [] [] [] [] [] [] []]; reflexivity. Qed.

Lemma trimStart_toLowerCase (s : string) :
  Js.trimStart (JsText.toLowerCase s) = JsText.toLowerCase (Js.trimStart s).
Proof.
  induction s as [|c s IH]; [reflexivity|].
  cbn [JsText.toLowerCase Js.trimStart]. rewrite is_white_space_lower.
  destruct (Js.is_white_space c); [exact IH | reflexivity].
Qed.

Lemma trimEnd_toLowerCase (s : string) :
  JsText.trimEnd (JsText.toLowerCase s) = JsText.toLowerCase (JsText.trimEnd s).
Proof.
  induction s as [|c s IH]; [reflexivity|].
  cbn [JsText.toLowerCase JsText.trimEnd]. rewrite IH, is_white_space_lower.
  destruct (JsText.trimEnd s) as [|d kept]; cbn [JsText.toLowerCase].
  - destruct (Js.is_white_space c); reflexivity.
  - reflexivity.
Qed.

Lemma trim_toLowerCase (s : string) :
  JsText.trim (JsText.toLowerCase s) = JsText.toLowerCase (JsText.trim s).
Proof. unfold JsText.trim. now rewrite trimStart_toLowerCase, trimEnd_toLowerCase. Qed.

Lemma trimStart_all_white_space (w : string) :
  all_white_space w = true -> Js.trimStart w = "".
Proof.
  induction w as [|c w IH]; [reflexivity|]. intros H.
  cbn [all_white_space] in H. apply andb_true_iff in H as [Hc Hw].
  cbn [Js.trimStart]. rewrite Hc. now apply IH.
Qed.

Lemma trimEnd_all_white_space (w : string) :
  all_white_space w = true -> JsText.trimEnd w = "".
Proof.
  induction w as [|c w IH]; [reflexivity|]. intros H.
  cbn [all_white_space] in H. apply andb_true_iff in H as [Hc Hw].
  cbn [JsText.trimEnd]. now rewrite (IH Hw), Hc.
Qed.

Lemma trimEnd_append_white_space (t w : string) :
  all_white_space w = true -> JsText.trimEnd (t +:+ w) = JsText.trimEnd t.
Proof.
  intros Hw. induction t as [|c t IH].
  - rewrite append_nil_l. now apply trimEnd_all_white_space.
  - rewrite append_String. cbn [JsText.trimEnd]. now rewrite IH.
Qed.

Lemma trimStart_append_white_space (s w : string) :
  all_white_space w = true ->
  Js.trimStart (s +:+ w)
  = if all_white_space s then "" else Js.trimStart s +:+ w.
Proof.
  intros Hw. induction s as [|c s IH].
  - rewrite append_nil_l. now apply trimStart_all_white_space.
  - rewrite append_String. cbn [Js.trimStart all_white_space].
    destruct (Js.is_white_space c); [exact IH | reflexivity].
Qed.

(** White space around a command does not change what [trim] gives. *)
Lemma trim_padding (w1 w2 s : string) :
  all_white_space w1 = true ->
  all_white_space w2 = true ->
  JsText.trim (w1 +:+ s +:+ w2) = JsText.trim s.
Proof.
  intros H1 H2. unfold JsText.trim.
  rewrite (trimStart_white_space w1 _ H1), (trimStart_append_white_space s w2 H2).
  destruct (all_white_space s) eqn:Hs.
  - now rewrite (trimStart_all_white_space s Hs).
  - now apply trimEnd_append_white_space.
Qed.

(** X19. The canned answer of the simulated client does not depend on
    the case of the letters of the command nor on white space around it:
    two commands that differ only in these get the same canned answer,
    unless neither is recognised, in which case each is echoed back as
    it was typed. *)
Theorem getSimulatedResponse_ignores_case_and_padding (w1 w2 s s' : string) :
  all_white_space w1 = true ->
  all_white_space w2 = true ->
  JsText.toLowerCase s = JsText.toLowerCase s' ->
  let padded := w1 +:+ s +:+ w2 in
  SSH2Client.getSimulatedResponse padded = SSH2Client.getSimulatedResponse s' \/
  (SSH2Client.getSimulatedResponse padded = "Command executed: " +:+ padded /\
   SSH2Client.getSimulatedResponse s' = "Command executed: " +:+ s').
Proof.
  intros H1 H2 Hcase padded. subst padded.
  assert (Hcmd : JsText.toLowerCase (JsText.trim (w1 +:+ s +:+ w2))
                 = JsText.toLowerCase (JsText.trim s')).
  { rewrite (trim_padding w1 w2 s H1 H2).
    now rewrite <- !trim_toLowerCase, Hcase. }
  unfold SSH2Client.getSimulatedResponse. rewrite Hcmd.
  repeat match goal with
         | |- context [if ?b then _ else _] => destruct b; [now left|]
         end.
  right. split; reflexivity.
Qed.

Lemma getSimulatedResponse_ignores_case_and_padding_witness :
  SSH2Client.getSimulatedResponse ("  " +:+ "Show SYSTEM" +:+ " ")
  = SSH2Client.getSimulatedResponse "show system".
Proof.
  destruct (getSimulatedResponse_ignores_case_and_padding
              "  " " " "Show SYSTEM" "show system" eq_refl eq_refl eq_refl)
    as [H|[_ H]]; [exact H | discriminate H].
Defined.

(** ** The command line of the terminal *)

Lemma react_consistent (input : Terminal.Input) (st : Terminal.InputState) :
  Terminal.consistent st -> Terminal.consistent (Terminal.react input st).
Proof.
  intros (Hlen & Hidx & Hblank). destruct input as [value|key|]; cbn [Terminal.react].
  - repeat split; assumption || (simpl; lia).
  - unfold Terminal.handleKeyDown.
    destruct (String.eqb key "ArrowUp"); [|destruct (String.eqb key "ArrowDown")].
    + repeat split; try assumption; simpl; lia.
    + repeat split; try assumption; simpl; lia.
    + repeat split; assumption || lia.
  - unfold Terminal.handleSubmit.
    destruct (String.eqb (JsText.trim (Terminal.command st)) "") eqn:Hb.
    + repeat split; assumption || lia.
    + apply String.eqb_neq in Hb.
      assert (Hf : (length (firstn 19 (Terminal.commandHistory st)) <= 19)%nat)
        by (rewrite length_firstn; lia).
      repeat split; cbn [Terminal.commandHistory Terminal.historyIndex length].
      * lia.
      * lia.
      * lia.
      * constructor; [exact Hb|]. now apply Forall_take.
Qed.

Lemma handleKeyDown_up (st : Terminal.InputState) :
  Terminal.handleKeyDown "ArrowUp" st
  = let newIndex :=
      Z.min (Terminal.historyIndex st + 1)
        (Z.of_nat (length (Terminal.commandHistory st)) - 1) in
    {| Terminal.command :=
         match Terminal.recalled (Terminal.commandHistory st) newIndex with
         | Some text => text
         | None => Terminal.command st
         end;
       Terminal.historyIndex := newIndex;
       Terminal.commandHistory := Terminal.commandHistory st |}.
Proof. reflexivity. Qed.

Lemma handleKeyDown_down (st : Terminal.InputState) :
  Terminal.handleKeyDown "ArrowDown" st
  = let newIndex := Z.max (Terminal.historyIndex st - 1) (-1) in
    {| Terminal.command :=
         match Terminal.recalled (Terminal.commandHistory st) newIndex with
         | Some text => text
         | None => ""
         end;
       Terminal.historyIndex := newIndex;
       Terminal.commandHistory := Terminal.commandHistory st |}.
Proof. reflexivity. Qed.

(** X20. Whatever the user types, presses and submits after the
    terminal is mounted, the command history holds at most 20 commands,
    none of them blank, and the history index is [-1] or the position of
    an entry. After an arrow key that lands on an entry, the input shows
    that entry; after an arrow down that leaves the history, the input
    is empty. *)
Theorem command_history_consistent (inputs : list Terminal.Input) (key : string) :
  let st := Terminal.replay inputs Terminal.initial in
  let st' := Terminal.handleKeyDown key st in
  Terminal.consistent st /\
  (key = "ArrowUp" \/ key = "ArrowDown" ->
   0 <= Terminal.historyIndex st' ->
   Terminal.entry (Terminal.commandHistory st') (Terminal.historyIndex st')
   = Some (Terminal.command st')) /\
  (key = "ArrowDown" -> Terminal.historyIndex st' = -1 -> Terminal.command st' = "").
Proof.
  intros st st'.
  assert (Hst : Terminal.consistent st).
  { subst st. clear st' key.
    assert (Hgen : forall s, Terminal.consistent s ->
                             Terminal.consistent (Terminal.replay inputs s)).
    { induction inputs as [|input inputs IH]; intros s Hs; [exact Hs|].
      simpl. apply IH, react_consistent, Hs. }
    apply Hgen. repeat split; simpl; try lia. constructor. }
  split; [exact Hst|].
  destruct Hst as (Hlen & Hidx & Hblank). split.
  - intros Hkey Hpos. subst st'.
    assert (Hshown : forall i,
               0 <= i <= Z.of_nat (length (Terminal.commandHistory st)) - 1 ->
               exists text,
                 Terminal.entry (Terminal.commandHistory st) i = Some text /\
                 Terminal.recalled (Terminal.commandHistory st) i = Some text).
    { intros i Hi. unfold Terminal.recalled, Terminal.entry.
      destruct (0 <=? i)%Z eqn:H0; [|lia].
      destruct (nth_error (Terminal.commandHistory st) (Z.to_nat i)) as [text|] eqn:Hn.
      - exists text. split; [reflexivity|].
        destruct (String.eqb text "") eqn:He; [|reflexivity].
        apply String.eqb_eq in He. subst text.
        apply nth_error_In in Hn. rewrite List.Forall_forall in Hblank.
        now destruct (Hblank _ Hn).
      - apply nth_error_None in Hn. lia. }
    destruct Hkey as [-> | ->].
    + rewrite handleKeyDown_up in *.
      cbn [Terminal.historyIndex Terminal.commandHistory Terminal.command] in *.
      destruct (Hshown (Z.min (Terminal.historyIndex st + 1)
                          (Z.of_nat (length (Terminal.commandHistory st)) - 1)))
        as (text & He & Hr); [lia|].
      now rewrite Hr, He.
    + rewrite handleKeyDown_down in *.
      cbn [Terminal.historyIndex Terminal.commandHistory Terminal.command] in *.
      destruct (Hshown (Z.max (Terminal.historyIndex st - 1) (-1)))
        as (text & He & Hr); [lia|].
      now rewrite Hr, He.
  - intros -> Hout. subst st'. rewrite handleKeyDown_down in *.
    cbn [Terminal.historyIndex Terminal.command] in *.
    rewrite Hout. reflexivity.
Qed.

(** After two commands, two arrows up and one arrow down, the input
    shows the entry the index points at. *)
Lemma command_history_consistent_witness :
  0 <= Terminal.historyIndex ExampleTerminal.browsing /\
  Terminal.entry (Terminal.commandHistory ExampleTerminal.browsing)
    (Terminal.historyIndex ExampleTerminal.browsing)
  = Some (Terminal.command ExampleTerminal.browsing).
Proof.
  assert (Hpos : 0 <= Terminal.historyIndex ExampleTerminal.browsing)
    by (vm_compute; discriminate).
  split; [exact Hpos|].
  destruct (command_history_consistent
              [ Terminal.Type_ "show system"; Terminal.Submit;
                Terminal.Type_ "help"; Terminal.Submit;
                Terminal.Press "ArrowUp"; Terminal.Press "ArrowUp" ]
              "ArrowDown") as (_ & Hshown & _).
  apply Hshown; [right; reflexivity | exact Hpos].
Defined.
